(** * go-ratelimiter: the Redis-backed store and the HTTP limiter middleware

    A shallow embedding of [redisStore] (construction, [Take], [Reset]),
    of the no-op store and of [LimiterMiddleware], together with the
    properties of the design document that can be settled on it.

    Conventions.
    - [uint64], [int64] and [time.Duration] values are integers in [Z];
      the wrap-around of a conversion or of an arithmetic operation is
      written where the Go code performs it.
    - Go strings are byte strings: [string].
    - A Go function returning [(..., error)] returns a tuple whose last
      component is an [option error] ([None] is [nil]).
    - Code that talks to Redis runs in the monad [M]: it threads the state
      of the connection and may panic. *)

From Stdlib Require Import ZArith Lia Ascii String.
From stdpp Require Import base option list strings gmap.

Local Open Scope Z_scope.

(** ** Go's [strconv], as far as the store uses it *)

Module strconv.

Definition maxUint64 : Z := 2 ^ 64 - 1.

(** The byte value of a character. *)
Definition byteOf (c : ascii) : Z := Z.of_N (N_of_ascii c).

Definition charOf (b : Z) : ascii := ascii_of_N (Z.to_N b).

(** [lower(c)]: [c | ('x' - 'X')]. *)
Definition lower (c : Z) : Z := Z.lor c 32.

Inductive NumError := ErrSyntax | ErrRange | ErrBase | ErrBitSize.

(** The digit loop of [ParseUint]: either the number read and whether an
    underscore was seen, or the value and the error returned at once. *)
Fixpoint parseLoop (base0 : bool) (base cutoff maxVal : Z)
    (s : string) (n : Z) (underscores : bool)
    : (Z * bool) + (Z * NumError) :=
  match s with
  | EmptyString => inl (n, underscores)
  | String ch s' =>
      let c := byteOf ch in
      if (c =? 95) && base0 then
        parseLoop base0 base cutoff maxVal s' n true
      else
        let digit :=
          if (48 <=? c) && (c <=? 57) then Some (c - 48)
          else if (97 <=? lower c) && (lower c <=? 122)
               then Some (lower c - 97 + 10)
               else None in
        match digit with
        | None => inr (0, ErrSyntax)
        | Some d =>
            if base <=? d then inr (0, ErrSyntax)
            else if cutoff <=? n then inr (maxVal, ErrRange)
            else
              let n' := (n * base) mod 2 ^ 64 in
              let n1 := (n' + d) mod 2 ^ 64 in
              if (n1 <? n') || (maxVal <? n1) then inr (maxVal, ErrRange)
              else parseLoop base0 base cutoff maxVal s' n1 underscores
        end
  end.

(** What the last character seen was, for [underscoreOK]. *)
Inductive saw := SawStart | SawDigit | SawUnderscore | SawOther.

Fixpoint underscoreLoop (hex : bool) (last : saw) (s : string) : bool :=
  match s with
  | EmptyString => match last with SawUnderscore => false | _ => true end
  | String ch s' =>
      let c := byteOf ch in
      if ((48 <=? c) && (c <=? 57))
         || (hex && (97 <=? lower c) && (lower c <=? 102)) then
        underscoreLoop hex SawDigit s'
      else if c =? 95 then
        match last with
        | SawDigit => underscoreLoop hex SawUnderscore s'
        | _ => false
        end
      else
        match last with
        | SawUnderscore => false
        | _ => underscoreLoop hex SawOther s'
        end
  end.

(** [underscoreOK(s)]: underscores only between digits, or between a base
    prefix and a digit. *)
Definition underscoreOK (s : string) : bool :=
  let s :=
    match s with
    | String ch s' =>
        if (byteOf ch =? 45) || (byteOf ch =? 43) then s' else s
    | EmptyString => s
    end in
  match s with
  | String c0 (String c1 s') =>
      let l := lower (byteOf c1) in
      if (byteOf c0 =? 48) && ((l =? 98) || (l =? 111) || (l =? 120)) then
        underscoreLoop (l =? 120) SawDigit s'
      else underscoreLoop false SawStart s
  | _ => underscoreLoop false SawStart s
  end.

(** The base and the digits left once [ParseUint] has looked at the
    prefix of [s] (the case [base == 0]). *)
Definition basePrefix (s : string) : Z * string :=
  match s with
  | String c0 rest =>
      if byteOf c0 =? 48 then
        match rest with
        | String c1 (String _ _ as digits) =>
            let l := lower (byteOf c1) in
            if l =? 98 then (2, digits)
            else if l =? 111 then (8, digits)
            else if l =? 120 then (16, digits)
            else (8, rest)
        | _ => (8, rest)
        end
      else (10, s)
  | EmptyString => (10, s)
  end.

(** [strconv.ParseUint(s, base, bitSize)]. *)
Definition ParseUint (s : string) (base bitSize : Z) : Z * option NumError :=
  match s with
  | EmptyString => (0, Some ErrSyntax)
  | _ =>
      let base0 := base =? 0 in
      let s0 := s in
      let chosen :=
        if (2 <=? base) && (base <=? 36) then Some (base, s)
        else if base =? 0 then Some (basePrefix s)
        else None in
      match chosen with
      | None => (0, Some ErrBase)
      | Some (base, s) =>
          if (bitSize <? 0) || (64 <? bitSize) then (0, Some ErrBitSize)
          else
            let bitSize := if bitSize =? 0 then 64 else bitSize in
            let cutoff := maxUint64 / base + 1 in
            let maxVal := 2 ^ bitSize - 1 in
            match parseLoop base0 base cutoff maxVal s 0 false with
            | inr (v, e) => (v, Some e)
            | inl (n, underscores) =>
                if underscores && negb (underscoreOK s0)
                then (0, Some ErrSyntax)
                else (n, None)
            end
      end
  end.

(** The character of a digit below 36. *)
Definition digitChar (d : Z) : ascii :=
  if d <? 10 then charOf (48 + d) else charOf (97 + (d - 10)).

(** The loop of [formatBits]: digits are produced from the least
    significant one, in front of [acc]. A [uint64] has at most 64 digits. *)
Fixpoint formatBits (fuel : nat) (u base : Z) (acc : string) : string :=
  match fuel with
  | O => acc
  | S fuel' =>
      if u <? base then String (digitChar u) acc
      else formatBits fuel' (u / base) base (String (digitChar (u mod base)) acc)
  end.

(** [strconv.FormatUint(i, base)]. *)
Definition FormatUint (i base : Z) : string := formatBits 64 i base "".

End strconv.

(** ** Errors and dynamically typed values *)

(** Go [error] values, as far as the store tells them apart: the sentinel
    [redis.Nil], an error made from a message ([errors.New], [fmt.Errorf]
    without [%w], an error of the client or of [strconv]), and
    [fmt.Errorf("msg: %w", cause)]. *)
Inductive error :=
| redis_Nil
| errors_New (msg : string)
| fmt_Errorf (msg : string) (cause : error).

(** [errors.Is(err, redis.Nil)]: [err] or an error it wraps is the
    sentinel. *)
Fixpoint errors_Is_Nil (err : error) : bool :=
  match err with
  | redis_Nil => true
  | errors_New _ => false
  | fmt_Errorf _ cause => errors_Is_Nil cause
  end.

(** [fmt.Errorf("msg: %w", err)] where [err] may be [nil]. *)
Definition fmt_Errorf_opt (msg : string) (cause : option error) : error :=
  match cause with
  | Some e => fmt_Errorf msg e
  | None => errors_New (msg +:+ ": %!w(<nil>)")
  end.

Definition error_of_NumError (e : strconv.NumError) : error :=
  match e with
  | strconv.ErrSyntax => errors_New "strconv.ParseUint: invalid syntax"
  | strconv.ErrRange => errors_New "strconv.ParseUint: value out of range"
  | strconv.ErrBase => errors_New "strconv.ParseUint: invalid base"
  | strconv.ErrBitSize => errors_New "strconv.ParseUint: invalid bit size"
  end.

(** [strconv.ParseUint] with its error as a Go [error]. *)
Definition ParseUint (s : string) (base bitSize : Z) : Z * option error :=
  let '(n, e) := strconv.ParseUint s base bitSize in (n, error_of_NumError <$> e).

(** The values of [interface{}] that a reply of the client can hold. *)
Inductive any :=
| Nil
| Str (s : string)
| Int (i : Z).

(** [v.(string)]: the string and [true], or the zero value and [false]. *)
Definition assert_string (v : any) : string * bool :=
  match v with
  | Str s => (s, true)
  | _ => ("", false)
  end.

(** [uint64(x)] of an [int64] or of an integer expression: modulo [2^64]. *)
Definition uint64 (x : Z) : Z := x mod 2 ^ 64.

(** ** The backing store

    Redis as the store uses it: hashes for the buckets, sets for the tags,
    and an expiry per key. Hash keys and set keys are kept in two tables:
    the limiter runs hash commands on bucket keys and set commands on tag
    keys only. Expiry deadlines are instants of the clock that [time.Now]
    reads, in nanoseconds. *)

Record redis := {
  hashes : gmap string (gmap string string);
  sets : gmap string (gset string);
  expiry : gmap string Z
}.

(** The commands the store issues. *)
Inductive Cmder :=
| CmdHSet (key : string) (values : list string)
| CmdExpire (key : string) (expiration : Z)
| CmdSAdd (key member : string)
| CmdDel (keys : list string).

(** HSET with the field/value pairs given as a flat list. *)
Fixpoint hset_fields (values : list string) (h : gmap string string)
    : gmap string string :=
  match values with
  | f :: v :: rest => hset_fields rest (<[f := v]> h)
  | _ => h
  end.

Definition key_exists (k : string) (db : redis) : bool :=
  bool_decide (is_Some (hashes db !! k) ∨ is_Some (sets db !! k)).

Definition del_key (k : string) (db : redis) : redis :=
  {| hashes := delete k (hashes db);
     sets := delete k (sets db);
     expiry := delete k (expiry db) |}.

(** The effect of one command run at the instant [now]. EXPIRE of a key
    that does not exist does nothing; a timeout that is not positive
    deletes the key. *)
Definition exec_cmd (now : Z) (c : Cmder) (db : redis) : redis :=
  match c with
  | CmdHSet k values =>
      {| hashes := <[k := hset_fields values (default ∅ (hashes db !! k))]> (hashes db);
         sets := sets db;
         expiry := expiry db |}
  | CmdSAdd k member =>
      {| hashes := hashes db;
         sets := <[k := {[member]} ∪ default ∅ (sets db !! k)]> (sets db);
         expiry := expiry db |}
  | CmdExpire k d =>
      if key_exists k db then
        if d <=? 0 then del_key k db
        else {| hashes := hashes db;
                sets := sets db;
                expiry := <[k := now + d]> (expiry db) |}
      else db
  | CmdDel keys => foldr del_key db keys
  end.

Definition exec_cmds (now : Z) (cmds : list Cmder) (db : redis) : redis :=
  foldl (fun db c => exec_cmd now c db) db cmds.

(** A key is gone once its deadline is reached. *)
Definition expired (now : Z) (db : redis) (k : string) : bool :=
  match expiry db !! k with
  | Some t => t <=? now
  | None => false
  end.

Definition purge (now : Z) (db : redis) : redis :=
  {| hashes := filter (fun kv => expired now db kv.1 = false) (hashes db);
     sets := filter (fun kv => expired now db kv.1 = false) (sets db);
     expiry := filter (fun kv => expired now db kv.1 = false) (expiry db) |}.

(** The connection: the clock, the contents of the server, and for each
    coming round trip whether it fails and with which error (a round trip
    beyond the end of the script succeeds). A refusal by the server is such
    a failure as well. *)
Record conn := {
  clock : Z;
  db : redis;
  faults : list (option error)
}.

(** Time passes: the clock advances by [d] and the server drops the keys
    whose deadline is reached. *)
Definition tick (d : Z) (c : conn) : conn :=
  {| clock := clock c + d;
     db := purge (clock c + d) (db c);
     faults := faults c |}.

(** ** The monad of code that uses the connection *)

Inductive outcome (A : Type) :=
| Done (a : A)
| Panic (msg : string).
Arguments Done {A} a.
Arguments Panic {A} msg.

Definition M (A : Type) : Type := conn -> outcome A * conn.

Definition ret {A : Type} (a : A) : M A := fun c => (Done a, c).

Definition bind {A B : Type} (m : M A) (k : A -> M B) : M B :=
  fun c =>
    match m c with
    | (Done a, c') => k a c'
    | (Panic msg, c') => (Panic msg, c')
    end.

Definition panic {A} (msg : string) : M A := fun c => (Panic msg, c).

Global Instance M_ret : MRet M := @ret.
Global Instance M_bind : MBind M := fun A B k m => bind m k.

(** [time.Now()], as nanoseconds since the epoch. *)
Definition time_Now : M Z := fun c => (Done (clock c), c).

(** One round trip: the next entry of the fault script is used up. *)
Definition next_fault (c : conn) : option error :=
  match faults c with
  | [] => None
  | f :: _ => f
  end.

Definition pop_fault (c : conn) : conn :=
  {| clock := clock c; db := db c; faults := tail (faults c) |}.

Definition roundtrip : M (option error) :=
  fun c => (Done (next_fault c), pop_fault c).

(** The connection once the server has run [cmds]. *)
Definition served (cmds : list Cmder) (c : conn) : conn :=
  {| clock := clock c;
     db := exec_cmds (clock c) cmds (db c);
     faults := faults c |}.

(** The server runs [cmds] at the current instant. *)
Definition server_exec (cmds : list Cmder) : M unit :=
  fun c => (Done tt, served cmds c).

(** [s[i]] of a slice: a run-time panic out of range. *)
Definition index {A} (s : list A) (i : nat) : M A :=
  match s !! i with
  | Some x => ret x
  | None => panic "index out of range"
  end.

(** *** The operations of [RedisClient] *)

Definition hash_field (d : redis) (key field : string) : any :=
  match hashes d !! key ≫= (fun h => h !! field) with
  | Some v => Str v
  | None => Nil
  end.

(** [client.HMGet(ctx, key, fields...).Result()]. *)
Definition HMGet (key : string) (fields : list string) : M (list any * option error) :=
  f ← roundtrip;
  match f with
  | Some e => ret ([], Some e)
  | None => fun c => (Done (map (hash_field (db c) key) fields, None), c)
  end.

(** [client.HSet(ctx, key, values).Err()]. *)
Definition HSet (key : string) (values : list string) : M (option error) :=
  f ← roundtrip;
  match f with
  | Some e => ret (Some e)
  | None => _ ← server_exec [CmdHSet key values]; ret None
  end.

(** [client.SMembers(ctx, key).Result()]. *)
Definition SMembers (key : string) : M (list string * option error) :=
  f ← roundtrip;
  match f with
  | Some e => ret ([], Some e)
  | None => fun c => (Done (elements (default ∅ (sets (db c) !! key)), None), c)
  end.

(** A transactional pipeline is the queue of its commands. A command method
    of the pipeline ([pipe.SAdd], [pipe.Del], ...) makes the command, puts
    it in the queue and returns it; [pipe.Process] puts the command it is
    given in the queue. *)
Definition Pipeliner := list Cmder.

Definition TxPipeline : Pipeliner := [].

Definition pipe_Process (pipe : Pipeliner) (c : Cmder) : Pipeliner := pipe ++ [c].

Definition pipe_SAdd (pipe : Pipeliner) (key member : string) : Pipeliner * Cmder :=
  (pipe ++ [CmdSAdd key member], CmdSAdd key member).

Definition pipe_Expire (pipe : Pipeliner) (key : string) (d : Z) : Pipeliner * Cmder :=
  (pipe ++ [CmdExpire key d], CmdExpire key d).

Definition pipe_HSet (pipe : Pipeliner) (key : string) (values : list string)
    : Pipeliner * Cmder :=
  (pipe ++ [CmdHSet key values], CmdHSet key values).

Definition pipe_Del (pipe : Pipeliner) (keys : list string) : Pipeliner * Cmder :=
  (pipe ++ [CmdDel keys], CmdDel keys).

(** [pipe.Exec(ctx)]: the queue runs as one MULTI/EXEC batch, or not at
    all. *)
Definition pipe_Exec (pipe : Pipeliner) : M (option error) :=
  f ← roundtrip;
  match f with
  | Some e => ret (Some e)
  | None => _ ← server_exec pipe; ret None
  end.

(** ** The Redis store *)

Definition redisActualPointsFieldName : string := "actual_points".
Definition redisResetTimeFieldName : string := "reset_time".
Definition redisMaxPointsFieldName : string := "max_points".

Definition defaultRedisPrefix : string := "rate_limiter_redistore_".
Definition defaultRedisTag : string := "goratelimit".
Definition defaultRedisTagPrefix : string := "tags:".

Record RedisConfig := {
  Tags : list string;
  TagsPrefix : string;
  Prefix : string;
  Interval : Z;
  Points : Z
}.

(** [redisStore]; its [client] is the connection that [M] threads. *)
Record redisStore := {
  tags : list string;
  tagPrefix : string;
  prefix : string;
  maxPoints : Z;
  interval : Z
}.

(** [s[i] = x] on a slice of strings: a run-time panic out of range. *)
Definition slice_set (s : list string) (i : nat) (x : string) : outcome (list string) :=
  if decide (i < length s)%nat then Done (<[i := x]> s)
  else Panic "index out of range".

(** [for idx, tag := range src { tags[idx] = tagPrefix + tag }], from
    index [idx] on. *)
Fixpoint prefix_tags (tagPrefix : string) (idx : nat) (src tags : list string)
    : outcome (list string) :=
  match src with
  | [] => Done tags
  | tag :: rest =>
      match slice_set tags idx (tagPrefix +:+ tag) with
      | Done tags' => prefix_tags tagPrefix (S idx) rest tags'
      | Panic msg => Panic msg
      end
  end.

Definition NewRedisStore (cfg : RedisConfig) : outcome redisStore :=
  (* make([]string, 0, len(cfg.Tags)) *)
  let tags : list string := [] in
  let prefix := if decide (Prefix cfg = "") then defaultRedisPrefix else Prefix cfg in
  let tagPrefix :=
    if decide (TagsPrefix cfg = "") then defaultRedisTagPrefix else TagsPrefix cfg in
  let filled :=
    if decide (length (Tags cfg) = 0%nat)
    then Done (tags ++ [tagPrefix +:+ defaultRedisTag])
    else prefix_tags tagPrefix 0 (Tags cfg) tags in
  match filled with
  | Done tags =>
      Done {| tags := tags;
              tagPrefix := tagPrefix;
              prefix := prefix;
              maxPoints := Points cfg;
              interval := Interval cfg |}
  | Panic msg => Panic msg
  end.

(** What [Take] returns: [(limit, remaining, resetTime, ok, err)]. *)
Definition decision : Type := Z * Z * Z * bool * option error.

Definition non_nil (err : option error) : bool :=
  match err with
  | Some _ => true
  | None => false
  end.

(** [update]: write fields of an existing hash. *)
Definition update (r : redisStore) (key : string) (fields : list string)
    : M (option error) :=
  err ← HSet key fields;
  match err with
  | Some e => mret (Some (fmt_Errorf "redis hset" e))
  | None => mret None
  end.

(** [hset]: HSET and EXPIRE of the key, and SADD and EXPIRE of every tag,
    in one transaction. *)
Definition hset (r : redisStore) (key : string) (fields : list string)
    (expiration : Z) : M (option error) :=
  let pipe := TxPipeline in
  let pipe :=
    foldl (fun pipe tag =>
             let '(pipe, cmd) := pipe_SAdd pipe tag key in
             let pipe := pipe_Process pipe cmd in
             let '(pipe, cmd) := pipe_Expire pipe tag expiration in
             pipe_Process pipe cmd)
          pipe (tags r) in
  let '(pipe, cmd) := pipe_HSet pipe key fields in
  let pipe := pipe_Process pipe cmd in
  let '(pipe, cmd) := pipe_Expire pipe key expiration in
  let pipe := pipe_Process pipe cmd in
  err ← pipe_Exec pipe;
  match err with
  | Some e => mret (Some (fmt_Errorf "redis pipeline exec" e))
  | None => mret None
  end.

Definition newBucket (r : redisStore) (key : string) : M decision :=
  now ← time_Now;
  let actual := maxPoints r in
  let resetTime := uint64 (now + interval r) in
  err ← hset r key
        [redisMaxPointsFieldName; strconv.FormatUint (maxPoints r) 10;
         redisActualPointsFieldName; strconv.FormatUint actual 10;
         redisResetTimeFieldName; strconv.FormatUint resetTime 10]
        (interval r);
  match err with
  | Some e => mret (0, 0, 0, false, Some (fmt_Errorf "redis hmset" e))
  | None => mret (maxPoints r, maxPoints r, resetTime, true, None)
  end.

Definition take (r : redisStore) (key : string) : M decision :=
  let prefixedKey := prefix r +:+ key in
  '(vals, err) ← HMGet prefixedKey
      [redisMaxPointsFieldName; redisActualPointsFieldName; redisResetTimeFieldName];
  match err with
  | Some e =>
      if errors_Is_Nil e then newBucket r prefixedKey
      else mret (0, 0, 0, false, Some (fmt_Errorf "HMGet" e))
  | None =>
      v0 ← index vals 0;
      match v0 with
      | Nil => newBucket r prefixedKey
      | _ =>
          let '(v, ok) := assert_string v0 in
          if negb ok then
            mret (0, 0, 0, false, Some (errors_New "redis mismatch types"))
          else
          let '(l, pErr) := ParseUint v 0 64 in
          if non_nil err then
            mret (0, 0, 0, false, Some (fmt_Errorf_opt "parse uint" pErr))
          else
          let limit := l in
          v1 ← index vals 1;
          let '(v, ok) := assert_string v1 in
          if negb ok then
            mret (0, 0, 0, false, Some (errors_New "redis mismatch types"))
          else
          let '(a, pErr) := ParseUint v 0 64 in
          if non_nil err then
            mret (0, 0, 0, false, Some (fmt_Errorf_opt "parse uint" pErr))
          else
          let remaining := a in
          v2 ← index vals 2;
          let '(v, ok) := assert_string v2 in
          if negb ok then
            mret (0, 0, 0, false, Some (errors_New "redis mismatch types"))
          else
          let '(t, pErr) := ParseUint v 0 64 in
          if non_nil err then
            mret (0, 0, 0, false, Some (fmt_Errorf_opt "parse uint" pErr))
          else
          let resetTimeUint := t in
          if 0 <? remaining then
            let remaining := remaining - 1 in
            err ← update r prefixedKey
                  [redisActualPointsFieldName; strconv.FormatUint remaining 10];
            match err with
            | Some e => mret (0, 0, 0, true, Some (fmt_Errorf "redis hmset" e))
            | None => mret (limit, remaining, resetTimeUint, true, None)
            end
          else mret (limit, remaining, resetTimeUint, false, None)
      end
  end.

Definition reset (r : redisStore) : M (option error) :=
  let pipe := TxPipeline in
  if decide (length (tags r) = 0%nat) then
    mret (Some (errors_New "tags not set"))
  else
    tag0 ← index (tags r) 0;
    '(keys, err) ← SMembers tag0;
    match err with
    | Some e => mret (Some (fmt_Errorf "redis smembers" e))
    | None =>
        let '(pipe, cmd) := pipe_Del pipe keys in
        let pipe := pipe_Process pipe cmd in
        let '(pipe, cmd) := pipe_Del pipe (tags r) in
        let pipe := pipe_Process pipe cmd in
        err ← pipe_Exec pipe;
        match err with
        | Some e => mret (Some (fmt_Errorf "redis pipeline exec" e))
        | None => mret None
        end
    end.

Definition redisStore_Take (r : redisStore) (key : string) : M decision :=
  '(limit, remaining, resetTime, ok, err) ← take r key;
  match err with
  | Some e => mret (0, 0, 0, false, Some (fmt_Errorf "take" e))
  | None => mret (limit, remaining, resetTime, ok, None)
  end.

Definition redisStore_Reset (r : redisStore) : M (option error) :=
  err ← reset r;
  match err with
  | Some e => mret (Some (fmt_Errorf "reset" e))
  | None => mret None
  end.

(** [ExclFunc]: exceptional parameters for a key. *)
Definition ExclFunc : Type := string -> bool * Z * Z.

Definition redisStore_TakeExcl (r : redisStore) (key : string) (f : ExclFunc)
    : M decision :=
  panic "implement me".

(** ** The [Store] interface and its implementations *)

(** A type [T] implements [Store] over the state [W] that its methods
    read and change. *)
Class Store (T W : Type) := {
  Take : T -> string -> W -> outcome decision * W;
  Reset : T -> W -> outcome (option error) * W;
  TakeExcl : T -> string -> ExclFunc -> W -> outcome decision * W
}.

Global Instance redisStore_Store : Store redisStore conn := {
  Take := redisStore_Take;
  Reset := redisStore_Reset;
  TakeExcl := redisStore_TakeExcl
}.

(** [noopStore]: no operation store. *)
Inductive noopStore := NewNoop.

Definition noopStore_Take (s : noopStore) (key : string) (w : unit)
    : outcome decision * unit :=
  (Done (0, 0, 0, true, None), w).

Definition noopStore_Reset (s : noopStore) (w : unit) : outcome (option error) * unit :=
  (Done None, w).

Definition noopStore_TakeExcl (s : noopStore) (key : string) (f : ExclFunc) (w : unit)
    : outcome decision * unit :=
  (Panic "implement me", w).

Global Instance noopStore_Store : Store noopStore unit := {
  Take := noopStore_Take;
  Reset := noopStore_Reset;
  TakeExcl := noopStore_TakeExcl
}.

(** A store for tests: [Take] answers what it was told to and records the
    key it was called with. *)
Record MockStore := { answer : decision }.

Definition MockStore_Take (s : MockStore) (key : string) (calls : list string)
    : outcome decision * list string :=
  (Done (answer s), calls ++ [key]).

Global Instance MockStore_Store : Store MockStore (list string) := {
  Take := MockStore_Take;
  Reset := fun _ calls => (Done None, calls);
  TakeExcl := fun _ _ _ calls => (Panic "implement me", calls)
}.

(** ** The HTTP middleware *)

Definition HeaderRateLimitLimit : string := "X-RateLimit-Limit".
Definition HeaderRateLimitRemaining : string := "X-RateLimit-Remaining".
Definition HeaderRateLimitReset : string := "X-RateLimit-Reset".
Definition HeaderRetryAfter : string := "Retry-After".

Definition StatusOK : Z := 200.
Definition StatusTooManyRequests : Z := 429.
Definition StatusInternalServerError : Z := 500.

(** [time.RFC1123]. *)
Definition defaultDateFormat : string := "Mon, 02 Jan 2006 15:04:05 MST".

Record Request := {
  RemoteAddr : string;
  RequestHeader : gmap string string
}.

(** The response under construction: the header map, and once
    [WriteHeader] has run the status code and the headers sent with it. *)
Record ResponseWriter := {
  Header : gmap string string;
  sent : option (Z * gmap string string)
}.

(** [w.Header().Set(k, v)]. *)
Definition Header_Set (k v : string) (w : ResponseWriter) : ResponseWriter :=
  {| Header := <[k := v]> (Header w); sent := sent w |}.

(** [w.WriteHeader(code)]: only the first call counts. *)
Definition WriteHeader (code : Z) (w : ResponseWriter) : ResponseWriter :=
  match sent w with
  | Some _ => w
  | None => {| Header := Header w; sent := Some (code, Header w) |}
  end.

Definition Handler : Type := ResponseWriter -> Request -> ResponseWriter.

Definition KeyFunc : Type := Request -> string * option error.

Record Options := {
  dateFormat : string;
  skipper : option (unit -> bool)
}.

Definition Option : Type := Options -> Options.

Definition WithDateFormat (format : string) : Option :=
  fun options => {| dateFormat := format; skipper := skipper options |}.

Definition WithSkipper (skipper : unit -> bool) : Option :=
  fun options => {| dateFormat := dateFormat options; skipper := Some skipper |}.

(** [int64(t)] of a [uint64]. *)
Definition int64 (t : Z) : Z :=
  let u := t mod 2 ^ 64 in
  if u <? 2 ^ 63 then u else u - 2 ^ 64.

(** The options once every [Option] has been applied. *)
Definition apply_options (opts : list Option) : Options :=
  foldl (fun opt o => o opt)
        {| dateFormat := defaultDateFormat; skipper := None |} opts.

(** The skipper is set and says to skip. *)
Definition skips (opt : Options) : bool :=
  match skipper opt with
  | Some skipperFn => skipperFn tt
  | None => false
  end.

Section Middleware.

Context {T W : Type} `{!Store T W}.

(** [time.Unix(0, nsec).UTC().Format(layout)], of the [time] package. *)
Variable time_Format : Z -> string -> string.

(** The handler that [LimiterMiddleware(s, keyFunc, opts...)(next)]
    returns: it takes the response and the request, and changes the
    state of the store behind [s]. *)
Definition LimiterMiddleware (s : T) (keyFunc : option KeyFunc)
    (opts : list Option) (next : Handler)
    : ResponseWriter -> Request -> W -> outcome ResponseWriter * W :=
  let opt := apply_options opts in
  let dateFormat := dateFormat opt in
  fun w r st =>
    if skips opt then (Done (next w r), st)
    else
      match keyFunc with
      | None => (Done (WriteHeader StatusInternalServerError w), st)
      | Some keyFunc =>
          let '(key, err) := keyFunc r in
          if non_nil err then
            (Done (WriteHeader StatusInternalServerError w), st)
          else
            match Take s key st with
            | (Panic msg, st') => (Panic msg, st')
            | (Done (limit, remaining, t, ok, err), st') =>
                if non_nil err then
                  (Done (WriteHeader StatusInternalServerError w), st')
                else
                  let resetTime := time_Format (int64 t) dateFormat in
                  let w := Header_Set HeaderRateLimitLimit
                             (strconv.FormatUint limit 10) w in
                  let w := Header_Set HeaderRateLimitRemaining
                             (strconv.FormatUint remaining 10) w in
                  let w := Header_Set HeaderRateLimitReset resetTime w in
                  if negb ok then
                    let w := Header_Set HeaderRetryAfter resetTime w in
                    (Done (WriteHeader StatusTooManyRequests w), st')
                  else (Done (next w r), st')
            end
      end.

End Middleware.

(** ** Overlapping calls of [take]

    [take] talks to the server twice when it decrements: HMGET, then HSET.
    [take_begin] is the call up to that second round trip, [take_end] the
    rest. Calls of other clients can run between the two. *)

Inductive pending :=
| Finished (d : decision)
| Update (prefixedKey : string) (limit remaining resetTimeUint : Z).

Definition take_begin (r : redisStore) (key : string) : M pending :=
  let prefixedKey := prefix r +:+ key in
  '(vals, err) ← HMGet prefixedKey
      [redisMaxPointsFieldName; redisActualPointsFieldName; redisResetTimeFieldName];
  match err with
  | Some e =>
      if errors_Is_Nil e then (d ← newBucket r prefixedKey; mret (Finished d))
      else mret (Finished (0, 0, 0, false, Some (fmt_Errorf "HMGet" e)))
  | None =>
      v0 ← index vals 0;
      match v0 with
      | Nil => (d ← newBucket r prefixedKey; mret (Finished d))
      | _ =>
          let '(v, ok) := assert_string v0 in
          if negb ok then
            mret (Finished (0, 0, 0, false, Some (errors_New "redis mismatch types")))
          else
          let '(l, pErr) := ParseUint v 0 64 in
          if non_nil err then
            mret (Finished (0, 0, 0, false, Some (fmt_Errorf_opt "parse uint" pErr)))
          else
          let limit := l in
          v1 ← index vals 1;
          let '(v, ok) := assert_string v1 in
          if negb ok then
            mret (Finished (0, 0, 0, false, Some (errors_New "redis mismatch types")))
          else
          let '(a, pErr) := ParseUint v 0 64 in
          if non_nil err then
            mret (Finished (0, 0, 0, false, Some (fmt_Errorf_opt "parse uint" pErr)))
          else
          let remaining := a in
          v2 ← index vals 2;
          let '(v, ok) := assert_string v2 in
          if negb ok then
            mret (Finished (0, 0, 0, false, Some (errors_New "redis mismatch types")))
          else
          let '(t, pErr) := ParseUint v 0 64 in
          if non_nil err then
            mret (Finished (0, 0, 0, false, Some (fmt_Errorf_opt "parse uint" pErr)))
          else
          let resetTimeUint := t in
          if 0 <? remaining then
            let remaining := remaining - 1 in
            mret (Update prefixedKey limit remaining resetTimeUint)
          else mret (Finished (limit, remaining, resetTimeUint, false, None))
      end
  end.

Definition take_end (r : redisStore) (p : pending) : M decision :=
  match p with
  | Finished d => mret d
  | Update prefixedKey limit remaining resetTimeUint =>
      err ← update r prefixedKey
            [redisActualPointsFieldName; strconv.FormatUint remaining 10];
      match err with
      | Some e => mret (0, 0, 0, true, Some (fmt_Errorf "redis hmset" e))
      | None => mret (limit, remaining, resetTimeUint, true, None)
      end
  end.

(** The exported [Take] around [take_end]. *)
Definition Take_end (r : redisStore) (p : pending) : M decision :=
  '(limit, remaining, resetTime, ok, err) ← take_end r p;
  match err with
  | Some e => mret (0, 0, 0, false, Some (fmt_Errorf "take" e))
  | None => mret (limit, remaining, resetTime, ok, None)
  end.

(** A call of [Take] is not started, between its two round trips, or has
    returned. *)
Inductive call :=
| NotStarted
| Waiting (p : pending)
| Returned (d : decision).

(** Call number [i] makes its next move. *)
Definition step_call (r : redisStore) (key : string) (i : nat) (calls : list call)
    : M (list call) :=
  match calls !! i with
  | Some NotStarted =>
      p ← take_begin r key;
      mret (<[i := Waiting p]> calls)
  | Some (Waiting p) =>
      d ← Take_end r p;
      mret (<[i := Returned d]> calls)
  | _ => mret calls
  end.

(** The calls move in the order the schedule gives. *)
Fixpoint run_schedule (r : redisStore) (key : string) (schedule : list nat)
    (calls : list call) : M (list call) :=
  match schedule with
  | [] => mret calls
  | i :: rest =>
      calls' ← step_call r key i calls;
      run_schedule r key rest calls'
  end.

Definition is_admitted (c : call) : bool :=
  match c with
  | Returned (_, _, _, true, None) => true
  | _ => false
  end.

Definition is_rejected (c : call) : bool :=
  match c with
  | Returned (_, _, _, false, None) => true
  | _ => false
  end.

Definition count_calls (p : call -> bool) (calls : list call) : nat :=
  length (filter (fun c => p c = true) calls).

(** [n] calls of [Take], one after the other. *)
Fixpoint Take_times (r : redisStore) (key : string) (n : nat) : M (list decision) :=
  match n with
  | O => mret []
  | S n' =>
      d ← redisStore_Take r key;
      ds ← Take_times r key n';
      mret (d :: ds)
  end.

(** ** Buckets in the store, and the life of a store *)

(** The values [take] reads for a key. *)
Definition bucket_vals (r : redisStore) (key : string) (d : redis) : list any :=
  map (hash_field d (prefix r +:+ key))
      [redisMaxPointsFieldName; redisActualPointsFieldName; redisResetTimeFieldName].

(** The bucket these values stand for: three numerals. *)
Definition decode (vals : list any) : option (Z * Z * Z) :=
  match vals with
  | [Str sl; Str sa; Str st] =>
      match strconv.ParseUint sl 0 64, strconv.ParseUint sa 0 64,
            strconv.ParseUint st 0 64 with
      | (l, None), (a, None), (t, None) => Some (l, a, t)
      | _, _, _ => None
      end
  | _ => None
  end.

Definition bucket_of (r : redisStore) (key : string) (d : redis) : option (Z * Z * Z) :=
  decode (bucket_vals r key d).

(** No bucket: what makes [take] create one. *)
Definition no_bucket (r : redisStore) (key : string) (d : redis) : Prop :=
  hash_field d (prefix r +:+ key) redisMaxPointsFieldName = Nil.

Inductive step :=
| StepTake (key : string)
| StepTick (d : Z).

Definition do_step (r : redisStore) (s : step) (c : conn) : conn :=
  match s with
  | StepTake key => (redisStore_Take r key c).2
  | StepTick d => tick d c
  end.

Definition run (r : redisStore) (steps : list step) (c : conn) : conn :=
  foldl (fun c s => do_step r s c) c steps.

(** ** Notions used in the statements *)

(** All characters are decimal digits. *)
Fixpoint is_decimal (s : string) : Prop :=
  match s with
  | EmptyString => True
  | String ch s' => 48 <= strconv.byteOf ch <= 57 /\ is_decimal s'
  end.

(** The number read when the digits of [s] follow the number [n]. *)
Fixpoint dec_value (s : string) (n : Z) : Z :=
  match s with
  | EmptyString => n
  | String ch s' => dec_value s' (n * 10 + (strconv.byteOf ch - 48))
  end.

(** The queue that [hset] sends. *)
Definition tag_cmds (tags : list string) (key : string) (expiration : Z) : list Cmder :=
  flat_map (fun tag => [CmdSAdd tag key; CmdSAdd tag key;
                        CmdExpire tag expiration; CmdExpire tag expiration]) tags.

Definition hset_cmds (r : redisStore) (key : string) (fields : list string)
    (expiration : Z) : list Cmder :=
  tag_cmds (tags r) key expiration ++
  [CmdHSet key fields; CmdHSet key fields;
   CmdExpire key expiration; CmdExpire key expiration].

(** The fields of a new bucket. *)
Definition bucket_fields (r : redisStore) (now : Z) : list string :=
  [redisMaxPointsFieldName; strconv.FormatUint (maxPoints r) 10;
   redisActualPointsFieldName; strconv.FormatUint (maxPoints r) 10;
   redisResetTimeFieldName; strconv.FormatUint (uint64 (now + interval r)) 10].

(** What [take] does once HMGET has answered with three strings. *)
Definition take_existing (r : redisStore) (key : string) (sl sa st : string)
    (c : conn) : outcome decision * conn :=
  let l := (strconv.ParseUint sl 0 64).1 in
  let a := (strconv.ParseUint sa 0 64).1 in
  let t := (strconv.ParseUint st 0 64).1 in
  if 0 <? a then
    match next_fault c with
    | Some e =>
        (Done (0, 0, 0, true,
               Some (fmt_Errorf "redis hmset" (fmt_Errorf "redis hset" e))),
         pop_fault c)
    | None =>
        (Done (l, a - 1, t, true, None),
         served [CmdHSet (prefix r +:+ key)
                   [redisActualPointsFieldName; strconv.FormatUint (a - 1) 10]]
                (pop_fault c))
    end
  else (Done (l, a, t, false, None), c).

(** A store as [DefaultRedisStore] would make it: ten requests a second. *)
Definition example_store : redisStore :=
  {| tags := ["tags:goratelimit"];
     tagPrefix := "tags:";
     prefix := "rate_limiter_redistore_";
     maxPoints := 10;
     interval := 1000000000 |}.

(** A server that holds nothing, and a client whose round trips succeed. *)
Definition empty_conn : conn :=
  {| clock := 1700000000000000000;
     db := {| hashes := ∅; sets := ∅; expiry := ∅ |};
     faults := [] |}.

(** A server that holds one bucket, written as [newBucket] writes it. *)
Definition bucket_conn (key : string) (l a t : Z) : conn :=
  {| clock := 1700000000000000000;
     db := {| hashes :=
                {[ key := {[ redisMaxPointsFieldName := strconv.FormatUint l 10;
                             redisActualPointsFieldName := strconv.FormatUint a 10;
                             redisResetTimeFieldName := strconv.FormatUint t 10 ]} ]};
              sets := {[ "tags:goratelimit" := {[ key ]} ]};
              expiry := {[ key := t; "tags:goratelimit" := t ]} |};
     faults := [] |}.

(** No round trip of the script fails. *)
Definition quiet (c : conn) : Prop := Forall (fun f => f = None) (faults c).

(** The bucket of [key] with the numeral of [remaining] replaced by [sa]. *)
Definition corrupt_conn (key sa : string) : conn :=
  {| clock := 1700000000000000000;
     db := {| hashes :=
                {[ key := {[ redisMaxPointsFieldName := "10";
                             redisActualPointsFieldName := sa;
                             redisResetTimeFieldName := "1700000001000000000" ]} ]};
              sets := {[ "tags:goratelimit" := {[ key ]} ]};
              expiry := {[ key := 1700000001000000000;
                           "tags:goratelimit" := 1700000001000000000 ]} |};
     faults := [] |}.

(** The keys that [reset] deletes: the members of the first tag, and the
    tags. *)
Definition reset_keys (r : redisStore) (d : redis) : list string :=
  match tags r with
  | [] => []
  | tag0 :: _ => elements (default ∅ (sets d !! tag0))
  end.

Definition reset_cmds (r : redisStore) (d : redis) : list Cmder :=
  [CmdDel (reset_keys r d); CmdDel (reset_keys r d);
   CmdDel (tags r); CmdDel (tags r)].

(** The rate-limit headers of a decision, on top of the headers [h]. *)
Definition limit_headers (limit remaining : Z) (resetTime : string)
    (h : gmap string string) : gmap string string :=
  <[HeaderRateLimitReset := resetTime]>
    (<[HeaderRateLimitRemaining := strconv.FormatUint remaining 10]>
       (<[HeaderRateLimitLimit := strconv.FormatUint limit 10]> h)).

(** A fresh response, a request, a key function and a handler, as in the
    tests of the middleware. *)
Definition fresh_response : ResponseWriter := {| Header := ∅; sent := None |}.

Definition test_request : Request :=
  {| RemoteAddr := "127.0.0.1:4000"; RequestHeader := ∅ |}.

Definition test_keyFunc : KeyFunc := fun _ => ("1234", None).

Definition failing_keyFunc : KeyFunc := fun _ => ("1234", Some (errors_New "mock error")).

Definition ok_handler : Handler := fun w _ => WriteHeader StatusOK w.

Definition layout_only : Z -> string -> string := fun _ layout => layout.

(** The response of an internal failure: status 500, the headers as they
    were. *)
Definition server_error (w : ResponseWriter) : ResponseWriter :=
  {| Header := Header w; sent := Some (StatusInternalServerError, Header w) |}.

(** What [n] calls in a row return, from a bucket [(l, a, t)]. *)
Fixpoint decisions (l a t : Z) (n : nat) : list decision :=
  match n with
  | O => []
  | S n' =>
      if 0 <? a then (l, a - 1, t, true, None) :: decisions l (a - 1) t n'
      else (l, a, t, false, None) :: decisions l a t n'
  end.

(** Every call runs its two phases before the next call starts. *)
Definition sequential (first n : nat) : list nat :=
  flat_map (fun i => [i; i]) (seq first n).







Definition cmd_avoids (k : string) (c : Cmder) : Prop :=
  match c with
  | CmdHSet k' _ | CmdExpire k' _ | CmdSAdd k' _ => k' <> k
  | CmdDel ks => k ∉ ks
  end.

(** ** The key function by IP address *)

Section IPKeyFunc.

(** [textproto.CanonicalMIMEHeaderKey], which [Header.Get] applies to the
    name it is given. *)
Variable CanonicalMIMEHeaderKey : string -> string.

(** [net.SplitHostPort]: the host, the port and the error. *)
Variable SplitHostPort : string -> string * string * option error.

(** [r.Header.Get(h)]: the first value of the header, [""] when there is
    none. [RequestHeader] holds the first value of each header under its
    canonical name. *)
Definition Header_Get (r : Request) (h : string) : string :=
  default "" (RequestHeader r !! CanonicalMIMEHeaderKey h).

(** The loop of [IPKeyFunc]: the value of the first header of the list that
    is not empty. *)
Fixpoint header_key (headers : list string) (r : Request) : option string :=
  match headers with
  | [] => None
  | h :: rest =>
      let v := Header_Get r h in
      if decide (v = "") then header_key rest r else Some v
  end.

Definition IPKeyFunc (headers : list string) : KeyFunc :=
  fun r =>
    match header_key headers r with
    | Some v => (v, None)
    | None =>
        let '(ip, _, err) := SplitHostPort (RemoteAddr r) in
        match err with
        | Some e => ("", Some e)
        | None => (ip, None)
        end
    end.

End IPKeyFunc.

(** ** More notions used in the statements *)

(** The store once [newBucket] has created the bucket of [key]. *)
Definition created_db (r : redisStore) (key : string) (c : conn) : redis :=
  exec_cmds (clock c)
    (hset_cmds r (prefix r +:+ key) (bucket_fields r (clock c)) (interval r))
    (db c).

(** The store once [take] has written [remaining = a] for [key]. *)
Definition updated_db (r : redisStore) (key : string) (a : Z) (c : conn) : redis :=
  exec_cmd (clock c)
    (CmdHSet (prefix r +:+ key)
       [redisActualPointsFieldName; strconv.FormatUint a 10])
    (db c).

(** What a call of [Take] returns and leaves in the store: an error, a
    rejection, a new bucket, or one permit less. *)
Definition Take_effect_of (r : redisStore) (key : string) (c : conn)
    (d : decision) (c' : conn) : Prop :=
  (exists e, d = (0, 0, 0, false, Some e) /\ db c' = db c) \/
  (exists l a t, d = (l, a, t, false, None) /\ a <= 0 /\ db c' = db c) \/
  (d = (maxPoints r, maxPoints r, uint64 (clock c + interval r), true, None) /\
   db c' = created_db r key c) \/
  (exists l a t,
     d = (l, a - 1, t, true, None) /\ 0 < a /\ db c' = updated_db r key (a - 1) c).



(** A connection whose first round trip fails. *)
Definition failing_conn (e : error) : conn :=
  {| clock := 1700000000000000000;
     db := {| hashes := ∅; sets := ∅; expiry := ∅ |};
     faults := [Some e] |}.

(** A request that carries a forwarding header. *)
Definition forwarded_request : Request :=
  {| RemoteAddr := "10.0.0.7:51000";
     RequestHeader := {[ "X-Forwarded-For" := "203.0.113.9" ]} |}.

(** A host and port split at the first colon; an error without one. *)
Fixpoint split_colon (s : string) : string * string * option error :=
  match s with
  | EmptyString => ("", "", Some (errors_New "missing port in address"))
  | String ch rest =>
      if decide (ch = ":"%char) then ("", rest, None)
      else let '(host, port, err) := split_colon rest in
           (String ch host, port, err)
  end.


(** * Properties *)

(** ** [strconv] on examples *)

Example ParseUint_decimal : strconv.ParseUint "1024" 0 64 = (1024, None).
Proof. reflexivity. Qed.

Example ParseUint_hex : strconv.ParseUint "0x_1F" 0 64 = (31, None).
Proof. reflexivity. Qed.

Example ParseUint_octal : strconv.ParseUint "017" 0 64 = (15, None).
Proof. reflexivity. Qed.

Example ParseUint_letters : strconv.ParseUint "abc" 0 64 = (0, Some strconv.ErrSyntax).
Proof. reflexivity. Qed.

Example ParseUint_underscore : strconv.ParseUint "1__0" 0 64 = (0, Some strconv.ErrSyntax).
Proof. reflexivity. Qed.

Example ParseUint_beyond_uint64 :
  strconv.ParseUint "18446744073709551616" 0 64 = (2 ^ 64 - 1, Some strconv.ErrRange).
Proof. reflexivity. Qed.

Example ParseUint_max :
  strconv.ParseUint "18446744073709551615" 0 64 = (2 ^ 64 - 1, None).
Proof. reflexivity. Qed.

Example FormatUint_max : strconv.FormatUint (2 ^ 64 - 1) 10 = "18446744073709551615".
Proof. reflexivity. Qed.

Example FormatUint_zero : strconv.FormatUint 0 10 = "0".
Proof. reflexivity. Qed.

(** ** Decimal numerals: what [FormatUint] writes, [ParseUint] reads *)

Lemma byteOf_digitChar d :
  0 <= d <= 9 -> strconv.byteOf (strconv.digitChar d) = 48 + d.
Proof.
  intros Hd.
  assert (d = 0 \/ d = 1 \/ d = 2 \/ d = 3 \/ d = 4 \/ d = 5 \/ d = 6 \/
          d = 7 \/ d = 8 \/ d = 9) as Hcases by lia.
  repeat (destruct Hcases as [-> | Hcases]; [reflexivity |]).
  subst d. reflexivity.
Qed.

Lemma dec_value_ge s : forall n, is_decimal s -> 0 <= n -> n <= dec_value s n.
Proof.
  induction s as [| ch s IH]; intros n Hs Hn; cbn [dec_value].
  - lia.
  - destruct Hs as [Hch Hs].
    specialize (IH (n * 10 + (strconv.byteOf ch - 48)) Hs). lia.
Qed.

Lemma parseLoop_decimal s : forall n,
  is_decimal s -> 0 <= n -> dec_value s n <= strconv.maxUint64 ->
  strconv.parseLoop true 10 (strconv.maxUint64 / 10 + 1) (2 ^ 64 - 1) s n false
  = inl (dec_value s n, false).
Proof.
  induction s as [| ch s IH]; intros n Hs Hn Hmax; cbn [strconv.parseLoop dec_value].
  - reflexivity.
  - destruct Hs as [Hch Hs]. cbn [dec_value] in Hmax.
    set (c := strconv.byteOf ch) in *.
    pose proof (dec_value_ge s (n * 10 + (c - 48)) Hs ltac:(lia)) as Hge.
    unfold strconv.maxUint64 in *.
    change (2 ^ 64) with 18446744073709551616 in *.
    change ((18446744073709551616 - 1) / 10 + 1) with 1844674407370955162 in *.
    replace ((c =? 95) && true) with false
      by (symmetry; apply andb_false_iff; left; apply Z.eqb_neq; lia).
    replace ((48 <=? c) && (c <=? 57)) with true
      by (symmetry; apply andb_true_iff; split; apply Z.leb_le; lia).
    cbv zeta.
    replace (10 <=? c - 48) with false by (symmetry; apply Z.leb_gt; lia).
    replace (1844674407370955162 <=? n) with false by (symmetry; apply Z.leb_gt; lia).
    rewrite (Z.mod_small (n * 10)) by lia.
    rewrite (Z.mod_small (n * 10 + (c - 48))) by lia.
    replace (n * 10 + (c - 48) <? n * 10) with false by (symmetry; apply Z.ltb_ge; lia).
    replace (18446744073709551616 - 1 <? n * 10 + (c - 48)) with false
      by (symmetry; apply Z.ltb_ge; lia).
    cbn [orb]. apply IH; [done | lia | lia].
Qed.

Lemma formatBits_decimal fuel : forall u acc,
  0 <= u -> is_decimal acc -> is_decimal (strconv.formatBits fuel u 10 acc).
Proof.
  induction fuel as [| fuel IH]; intros u acc Hu Hacc; cbn [strconv.formatBits].
  - done.
  - destruct (Z.ltb_spec u 10) as [Hlt | Hge].
    + cbn [is_decimal]. rewrite byteOf_digitChar by lia. split; [lia | done].
    + apply IH.
      * apply Z.div_pos; lia.
      * cbn [is_decimal]. pose proof (Z.mod_pos_bound u 10 ltac:(lia)).
        rewrite byteOf_digitChar by lia. split; [lia | done].
Qed.

Lemma formatBits_value fuel : forall u acc,
  0 <= u < 10 ^ Z.of_nat fuel ->
  dec_value (strconv.formatBits fuel u 10 acc) 0 = dec_value acc u.
Proof.
  induction fuel as [| fuel IH]; intros u acc Hu; cbn [strconv.formatBits].
  - change (10 ^ Z.of_nat 0) with 1 in Hu. by replace u with 0 by lia.
  - rewrite Nat2Z.inj_succ, Z.pow_succ_r in Hu by lia.
    destruct (Z.ltb_spec u 10) as [Hlt | Hge].
    + cbn [dec_value]. rewrite byteOf_digitChar by lia. f_equal. lia.
    + rewrite IH.
      * cbn [dec_value]. pose proof (Z.mod_pos_bound u 10 ltac:(lia)).
        rewrite byteOf_digitChar by lia. f_equal.
        pose proof (Z.div_mod u 10 ltac:(lia)). lia.
      * split; [apply Z.div_pos; lia |].
        apply Z.div_lt_upper_bound; lia.
Qed.

(** A positive number is written with a first digit that is not zero. *)
Lemma formatBits_head fuel : forall u acc,
  0 < u < 10 ^ Z.of_nat fuel ->
  exists ch rest,
    strconv.formatBits fuel u 10 acc = String ch rest /\
    49 <= strconv.byteOf ch <= 57.
Proof.
  induction fuel as [| fuel IH]; intros u acc Hu; cbn [strconv.formatBits].
  - change (10 ^ Z.of_nat 0) with 1 in Hu. lia.
  - rewrite Nat2Z.inj_succ, Z.pow_succ_r in Hu by lia.
    destruct (Z.ltb_spec u 10) as [Hlt | Hge].
    + eexists _, _. split; [reflexivity |]. rewrite byteOf_digitChar by lia. lia.
    + apply IH. split.
      * apply Z.div_str_pos; lia.
      * apply Z.div_lt_upper_bound; lia.
Qed.

(** Reading a decimal numeral without a leading zero. *)
Lemma ParseUint_decimal_string ch rest :
  49 <= strconv.byteOf ch <= 57 ->
  is_decimal rest ->
  dec_value (String ch rest) 0 <= strconv.maxUint64 ->
  strconv.ParseUint (String ch rest) 0 64 = (dec_value (String ch rest) 0, None).
Proof.
  intros Hch Hrest Hmax.
  unfold strconv.ParseUint.
  change ((2 <=? 0) && (0 <=? 36)) with false.
  change (0 =? 0) with true.
  change ((64 <? 0) || (64 <? 64)) with false.
  change (64 =? 0) with false.
  cbv iota zeta beta.
  unfold strconv.basePrefix.
  replace (strconv.byteOf ch =? 48) with false by (symmetry; apply Z.eqb_neq; lia).
  cbv iota.
  rewrite parseLoop_decimal; [reflexivity | | lia | done].
  cbn [is_decimal]. split; [lia | done].
Qed.

(** What [FormatUint] writes in base 10, [ParseUint] reads back. *)
Lemma ParseUint_FormatUint n :
  0 <= n < 2 ^ 64 ->
  strconv.ParseUint (strconv.FormatUint n 10) 0 64 = (n, None).
Proof.
  intros Hn.
  destruct (decide (n = 0)) as [-> | Hne]; [reflexivity |].
  assert (0 < n < 10 ^ Z.of_nat 64) as Hfuel.
  { split; [lia |]. eapply Z.lt_le_trans; [apply Hn |]. by vm_compute. }
  unfold strconv.FormatUint.
  destruct (formatBits_head 64 n "" Hfuel) as (ch & rest & Heq & Hch).
  pose proof (formatBits_decimal 64 n "" ltac:(lia) I) as Hdec.
  pose proof (formatBits_value 64 n "" ltac:(lia)) as Hval.
  rewrite Heq in *. cbn [dec_value] in Hval.
  destruct Hdec as [_ Hdec].
  rewrite ParseUint_decimal_string; [| done | done |].
  - cbn [dec_value]. by rewrite Hval.
  - cbn [dec_value]. rewrite Hval. unfold strconv.maxUint64. lia.
Qed.

(** ** Running the store's code *)

Arguments strconv.FormatUint : simpl never.
Arguments strconv.ParseUint : simpl never.
Arguments uint64 : simpl never.

Ltac run_M :=
  unfold mbind, mret, M_bind, M_ret, bind, ret, panic, index, roundtrip,
    server_exec, time_Now in *.

Lemma hset_queue (tags : list string) key expiration : forall pipe : Pipeliner,
  foldl (fun pipe tag =>
           let '(pipe, cmd) := pipe_SAdd pipe tag key in
           let pipe := pipe_Process pipe cmd in
           let '(pipe, cmd) := pipe_Expire pipe tag expiration in
           pipe_Process pipe cmd) pipe tags
  = pipe ++ tag_cmds tags key expiration.
Proof.
  induction tags as [| tag tags IH]; intros pipe; cbn [foldl tag_cmds flat_map].
  - by rewrite app_nil_r.
  - rewrite IH. unfold pipe_SAdd, pipe_Expire, pipe_Process. cbn.
    by rewrite <- !app_assoc.
Qed.

Lemma hset_run r key fields expiration c :
  hset r key fields expiration c =
  match next_fault c with
  | Some e => (Done (Some (fmt_Errorf "redis pipeline exec" e)), pop_fault c)
  | None => (Done None, served (hset_cmds r key fields expiration) (pop_fault c))
  end.
Proof.
  unfold hset. rewrite hset_queue.
  unfold pipe_HSet, pipe_Expire, pipe_Process, pipe_Exec, TxPipeline, hset_cmds.
  run_M. cbn [app]. rewrite <- !app_assoc. cbn [app].
  by destruct (next_fault c).
Qed.

Lemma newBucket_run r pk c :
  newBucket r pk c =
  match next_fault c with
  | Some e =>
      (Done (0, 0, 0, false,
             Some (fmt_Errorf "redis hmset" (fmt_Errorf "redis pipeline exec" e))),
       pop_fault c)
  | None =>
      (Done (maxPoints r, maxPoints r, uint64 (clock c + interval r), true, None),
       served (hset_cmds r pk (bucket_fields r (clock c)) (interval r)) (pop_fault c))
  end.
Proof.
  unfold newBucket. run_M. rewrite hset_run.
  by destruct (next_fault c).
Qed.

Lemma update_run r key fields c :
  update r key fields c =
  match next_fault c with
  | Some e => (Done (Some (fmt_Errorf "redis hset" e)), pop_fault c)
  | None => (Done None, served [CmdHSet key fields] (pop_fault c))
  end.
Proof. unfold update, HSet. run_M. by destruct (next_fault c). Qed.

Lemma take_run_existing r key sl sa st c :
  next_fault c = None ->
  bucket_vals r key (db c) = [Str sl; Str sa; Str st] ->
  take r key c = take_existing r key sl sa st (pop_fault c).
Proof.
  intros Hf Hvals. unfold take, HMGet. run_M. rewrite Hf.
  change (db (pop_fault c)) with (db c).
  fold (bucket_vals r key (db c)). rewrite Hvals. cbn [lookup list_lookup].
  unfold take_existing, ParseUint. cbn.
  destruct (strconv.ParseUint sl 0 64) as [l el].
  destruct (strconv.ParseUint sa 0 64) as [a ea].
  destruct (strconv.ParseUint st 0 64) as [t et].
  cbn. destruct (0 <? a); [| done].
  rewrite update_run. by destruct (next_fault (pop_fault c)).
Qed.

Lemma take_run_missing r key c :
  next_fault c = None ->
  no_bucket r key (db c) ->
  take r key c = newBucket r (prefix r +:+ key) (pop_fault c).
Proof.
  intros Hf Hno. unfold take, HMGet. run_M. rewrite Hf.
  change (db (pop_fault c)) with (db c). cbn [map lookup list_lookup].
  unfold no_bucket in Hno. by rewrite Hno.
Qed.

Lemma take_run_Nil r key e c :
  next_fault c = Some e ->
  errors_Is_Nil e = true ->
  take r key c = newBucket r (prefix r +:+ key) (pop_fault c).
Proof.
  intros Hf He. unfold take, HMGet. run_M. by rewrite Hf, He.
Qed.

Lemma take_run_error r key e c :
  next_fault c = Some e ->
  errors_Is_Nil e = false ->
  take r key c = (Done (0, 0, 0, false, Some (fmt_Errorf "HMGet" e)), pop_fault c).
Proof.
  intros Hf He. unfold take, HMGet. run_M. by rewrite Hf, He.
Qed.

(** ** What [ParseUint] returns is a [uint64] *)

Lemma parseLoop_range base0 base cutoff maxVal s : forall n u m u',
  0 <= n <= maxVal ->
  strconv.parseLoop base0 base cutoff maxVal s n u = inl (m, u') ->
  0 <= m <= maxVal.
Proof.
  induction s as [| ch s IH]; intros n u m u' Hn Hrun; cbn [strconv.parseLoop] in Hrun.
  - by simplify_eq.
  - cbv zeta in Hrun.
    destruct ((strconv.byteOf ch =? 95) && base0); [by eapply IH |].
    match type of Hrun with
    | match ?dg with _ => _ end = _ => destruct dg as [d |]; [| done]
    end.
    destruct (base <=? d); [done |].
    destruct (cutoff <=? n); [done |].
    match type of Hrun with
    | (if ?b1 || ?b2 then _ else _) = _ =>
        destruct b1; [done |]; destruct b2 eqn:Hle
    end; cbn [orb] in Hrun; [done |].
    apply Z.ltb_ge in Hle.
    eapply IH; [| exact Hrun]. split; [| done].
    apply Z.mod_pos_bound. lia.
Qed.

Lemma ParseUint_range s n :
  strconv.ParseUint s 0 64 = (n, None) -> 0 <= n < 2 ^ 64.
Proof.
  unfold strconv.ParseUint. destruct s as [| ch s]; [done |].
  change ((2 <=? 0) && (0 <=? 36)) with false.
  change (0 =? 0) with true.
  change ((64 <? 0) || (64 <? 64)) with false.
  change (64 =? 0) with false.
  cbv iota zeta beta.
  destruct (strconv.basePrefix (String ch s)) as [base digits].
  destruct (strconv.parseLoop true base (strconv.maxUint64 / base + 1)
              (2 ^ 64 - 1) digits 0 false) as [[m u'] | [v e]] eqn:Hloop; [| done].
  apply parseLoop_range in Hloop; [| lia].
  destruct (u' && negb (strconv.underscoreOK (String ch s))); [done |].
  intros [= <-]. lia.
Qed.

(** ** Buckets and single commands *)

Lemma decode_Some vals l a t :
  decode vals = Some (l, a, t) ->
  exists sl sa st,
    vals = [Str sl; Str sa; Str st] /\
    strconv.ParseUint sl 0 64 = (l, None) /\
    strconv.ParseUint sa 0 64 = (a, None) /\
    strconv.ParseUint st 0 64 = (t, None).
Proof.
  unfold decode. intros H.
  destruct vals as [| [| sl |] [| [| sa |] [| [| st |] [|]]]]; try done.
  destruct (strconv.ParseUint sl 0 64) as [l' [|]] eqn:Hl; [done |].
  destruct (strconv.ParseUint sa 0 64) as [a' [|]] eqn:Ha; [done |].
  destruct (strconv.ParseUint st 0 64) as [t' [|]] eqn:Ht; [done |].
  injection H as <- <- <-. by eexists _, _, _.
Qed.

Lemma bucket_of_range r key d l a t :
  bucket_of r key d = Some (l, a, t) ->
  0 <= l < 2 ^ 64 /\ 0 <= a < 2 ^ 64 /\ 0 <= t < 2 ^ 64.
Proof.
  intros (sl & sa & st & _ & Hl & Ha & Ht)%decode_Some.
  apply ParseUint_range in Hl, Ha, Ht. done.
Qed.


Lemma hash_field_HSet now k f v d k' f' :
  hash_field (exec_cmd now (CmdHSet k [f; v]) d) k' f' =
  if decide (k = k' /\ f = f') then Str v else hash_field d k' f'.
Proof.
  unfold hash_field. cbn [exec_cmd hashes hset_fields].
  destruct (decide (k = k')) as [<- | Hk].
  - rewrite lookup_insert_eq. cbn.
    destruct (decide (f = f')) as [<- | Hf].
    + rewrite lookup_insert_eq. by rewrite decide_True.
    + rewrite lookup_insert_ne by done. rewrite decide_False by (by intros [_ ?]).
      destruct (hashes d !! k); cbn; [done |]. by rewrite lookup_empty.
  - rewrite lookup_insert_ne by done. by rewrite decide_False by (by intros [? _]).
Qed.

Lemma field_names_distinct :
  redisMaxPointsFieldName <> redisActualPointsFieldName /\
  redisMaxPointsFieldName <> redisResetTimeFieldName /\
  redisActualPointsFieldName <> redisResetTimeFieldName.
Proof. done. Qed.

(** The bucket once [remaining] has been written back. *)
Lemma bucket_of_update now r key d l a t a' :
  bucket_of r key d = Some (l, a, t) ->
  0 <= a' < 2 ^ 64 ->
  bucket_of r key
    (exec_cmd now (CmdHSet (prefix r +:+ key)
                     [redisActualPointsFieldName; strconv.FormatUint a' 10]) d)
  = Some (l, a', t).
Proof.
  intros (sl & sa & st & Hvals & Hl & Ha & Ht)%decode_Some Ha'.
  unfold bucket_of, bucket_vals in *. cbn [map] in *.
  rewrite !hash_field_HSet.
  injection Hvals as -> -> ->.
  rewrite decide_False by (intros [_ ?]; done).
  rewrite decide_True by done.
  rewrite decide_False by (intros [_ ?]; done).
  unfold decode. by rewrite Hl, Ht, ParseUint_FormatUint.
Qed.

(** ** The batch that creates a bucket *)

Lemma exec_cmds_app now cmds1 cmds2 d :
  exec_cmds now (cmds1 ++ cmds2) d = exec_cmds now cmds2 (exec_cmds now cmds1 d).
Proof. unfold exec_cmds. apply foldl_app. Qed.

(** With a positive expiry the tag commands leave the hashes alone. *)
Lemma tag_cmds_hashes now tags key expiration : forall d,
  0 < expiration ->
  hashes (exec_cmds now (tag_cmds tags key expiration) d) = hashes d.
Proof.
  induction tags as [| tag tags IH]; intros d Hexp; [done |].
  cbn [tag_cmds flat_map]. rewrite exec_cmds_app. fold (tag_cmds tags key expiration).
  rewrite IH by done.
  unfold exec_cmds. cbn [foldl exec_cmd].
  replace (expiration <=? 0) with false by (symmetry; apply Z.leb_gt; lia).
  by repeat (destruct (key_exists _ _); cbn [hashes]).
Qed.

(** The hash of a new bucket holds the three numerals. *)
Lemma hset_bucket_fields r now h :
  let h' := hset_fields (bucket_fields r now) h in
  h' !! redisMaxPointsFieldName = Some (strconv.FormatUint (maxPoints r) 10) /\
  h' !! redisActualPointsFieldName = Some (strconv.FormatUint (maxPoints r) 10) /\
  h' !! redisResetTimeFieldName
    = Some (strconv.FormatUint (uint64 (now + interval r)) 10).
Proof.
  cbn [bucket_fields hset_fields]. repeat split.
  - rewrite lookup_insert_ne by done. rewrite lookup_insert_ne by done.
    by rewrite lookup_insert_eq.
  - rewrite lookup_insert_ne by done. by rewrite lookup_insert_eq.
  - by rewrite lookup_insert_eq.
Qed.

Lemma uint64_range x : 0 <= uint64 x < 2 ^ 64.
Proof. unfold uint64. apply Z.mod_pos_bound. lia. Qed.

Lemma decode_bucket_fields r now d pk h :
  0 <= maxPoints r < 2 ^ 64 ->
  hashes d !! pk = Some (hset_fields (bucket_fields r now) h) ->
  decode (map (hash_field d pk)
            [redisMaxPointsFieldName; redisActualPointsFieldName;
             redisResetTimeFieldName])
  = Some (maxPoints r, maxPoints r, uint64 (now + interval r)).
Proof.
  intros Hmax Hh. destruct (hset_bucket_fields r now h) as (H1 & H2 & H3).
  cbn [map]. unfold hash_field. rewrite Hh. cbn [mbind option_bind].
  rewrite H1, H2, H3. unfold decode.
  rewrite !ParseUint_FormatUint; [done | apply uint64_range | done].
Qed.

(** The last four commands of the batch, with a positive expiry. *)
Lemma bucket_cmds_positive now pk fields expiration d :
  0 < expiration ->
  let d' := exec_cmds now [CmdHSet pk fields; CmdHSet pk fields;
                           CmdExpire pk expiration; CmdExpire pk expiration] d in
  hashes d' = <[pk := hset_fields fields
                        (hset_fields fields (default ∅ (hashes d !! pk)))]> (hashes d) /\
  sets d' = sets d /\
  expiry d' = <[pk := now + expiration]> (expiry d).
Proof.
  intros Hexp. unfold exec_cmds. cbn [foldl exec_cmd hashes sets expiry].
  replace (expiration <=? 0) with false by (symmetry; apply Z.leb_gt; lia).
  rewrite lookup_insert_eq. cbn [default].
  rewrite insert_insert_eq.
  assert (forall e,
    key_exists pk
      {| hashes := <[pk := hset_fields fields
                             (hset_fields fields (default ∅ (hashes d !! pk)))]>
                     (hashes d);
         sets := sets d; expiry := e |} = true) as Hex.
  { intros e. unfold key_exists. apply bool_decide_eq_true. left.
    cbn [hashes]. rewrite lookup_insert_eq. by eexists. }
  rewrite Hex. cbn [hashes sets expiry]. rewrite Hex. cbn [hashes sets expiry].
  by rewrite insert_insert_eq.
Qed.

Lemma newBucket_db r now pk d :
  0 <= maxPoints r < 2 ^ 64 ->
  0 < interval r ->
  let d' := exec_cmds now (hset_cmds r pk (bucket_fields r now) (interval r)) d in
  decode (map (hash_field d' pk)
            [redisMaxPointsFieldName; redisActualPointsFieldName;
             redisResetTimeFieldName])
  = Some (maxPoints r, maxPoints r, uint64 (now + interval r)) /\
  expiry d' !! pk = Some (now + interval r).
Proof.
  intros Hmax Hint d'. subst d'. unfold hset_cmds. rewrite exec_cmds_app.
  set (d1 := exec_cmds now (tag_cmds (tags r) pk (interval r)) d).
  destruct (bucket_cmds_positive now pk (bucket_fields r now) (interval r) d1 Hint)
    as (Hh & _ & He).
  split.
  - eapply decode_bucket_fields; [done |]. rewrite Hh. apply lookup_insert_eq.
  - rewrite He. apply lookup_insert_eq.
Qed.

(** ** [Take] on the Redis store *)

Lemma Take_run r key c :
  redisStore_Take r key c =
  match take r key c with
  | (Done (limit, remaining, resetTime, ok, err), c') =>
      (Done match err with
            | Some e => (0, 0, 0, false, Some (fmt_Errorf "take" e))
            | None => (limit, remaining, resetTime, ok, None)
            end, c')
  | (Panic msg, c') => (Panic msg, c')
  end.
Proof.
  unfold redisStore_Take. run_M.
  destruct (take r key c) as [[[[[[l a] t] ok] [e |]] | msg] c']; done.
Qed.



(** The admitted call: the result and the connection it leaves. *)
Lemma Take_admitted_run r key c l a t :
  next_fault c = None ->
  next_fault (pop_fault c) = None ->
  bucket_of r key (db c) = Some (l, a, t) ->
  0 < a ->
  redisStore_Take r key c
  = (Done (l, a - 1, t, true, None),
     served [CmdHSet (prefix r +:+ key)
               [redisActualPointsFieldName; strconv.FormatUint (a - 1) 10]]
            (pop_fault (pop_fault c))).
Proof.
  intros Hget Hset Hb Ha.
  pose proof Hb as (sl & sa & st & Hvals & Hl & Hpa & Ht)%decode_Some.
  rewrite Take_run, (take_run_existing r key sl sa st c Hget Hvals).
  unfold take_existing. rewrite Hl, Hpa, Ht. cbn [fst].
  replace (0 <? a) with true by (symmetry; apply Z.ltb_lt; lia).
  by rewrite Hset.
Qed.

(** C3. When the store holds a bucket [(limit, remaining, resetTime)] for
    the key with [remaining > 0], and HMGET and HSET succeed, [Take] returns
    [(limit, remaining - 1, resetTime, true, nil)]; in the store only the
    field [actual_points] of that key has changed, to [remaining - 1]: the
    other fields, the other hashes, every expiry and every tag set are as
    before. *)
Theorem Take_decrements r key c l a t :
  next_fault c = None ->
  next_fault (pop_fault c) = None ->
  bucket_of r key (db c) = Some (l, a, t) ->
  0 < a ->
  let c' := (redisStore_Take r key c).2 in
  redisStore_Take r key c = (Done (l, a - 1, t, true, None), c') /\
  bucket_of r key (db c') = Some (l, a - 1, t) /\
  (forall f,
     hash_field (db c') (prefix r +:+ key) f =
     if decide (f = redisActualPointsFieldName)
     then Str (strconv.FormatUint (a - 1) 10)
     else hash_field (db c) (prefix r +:+ key) f) /\
  (forall k, k <> prefix r +:+ key -> hashes (db c') !! k = hashes (db c) !! k) /\
  sets (db c') = sets (db c) /\
  expiry (db c') = expiry (db c).
Proof.
  intros Hget Hset Hb Ha c'. subst c'.
  pose proof (bucket_of_range _ _ _ _ _ _ Hb) as (_ & Har & _).
  rewrite (Take_admitted_run r key c l a t Hget Hset Hb Ha).
  cbn [snd served db pop_fault clock].
  change (exec_cmds ?now [?cmd] ?d) with (exec_cmd now cmd d).
  split; [done |]. split; [| split; [| split]].
  - by apply (bucket_of_update _ _ _ _ l a t); [| lia].
  - intros f. rewrite hash_field_HSet.
    destruct (decide (f = redisActualPointsFieldName)) as [-> | Hf].
    + by rewrite decide_True.
    + by rewrite decide_False by (intros [_ ?]; done).
  - intros k Hk. cbn [exec_cmd hashes]. by rewrite lookup_insert_ne.
  - done.
Qed.

Lemma Take_decrements_witness :
  redisStore_Take example_store "apikey-1"
    (bucket_conn "rate_limiter_redistore_apikey-1" 10 3 1700000001000000000)
  = (Done (10, 2, 1700000001000000000, true, None),
     (redisStore_Take example_store "apikey-1"
        (bucket_conn "rate_limiter_redistore_apikey-1" 10 3 1700000001000000000)).2).
Proof.
  apply (Take_decrements example_store "apikey-1"
           (bucket_conn "rate_limiter_redistore_apikey-1" 10 3 1700000001000000000)
           10 3 1700000001000000000).
  - reflexivity.
  - reflexivity.
  - vm_compute. reflexivity.
  - lia.
Defined.

Lemma quiet_next c : quiet c -> next_fault c = None.
Proof.
  unfold quiet, next_fault. destruct (faults c) as [| f fs]; [done |].
  by intros [? _]%Forall_cons.
Qed.

Lemma quiet_pop c : quiet c -> quiet (pop_fault c).
Proof.
  unfold quiet, pop_fault. cbn [faults].
  destruct (faults c) as [| f fs]; [done |]. by intros [_ ?]%Forall_cons.
Qed.

Lemma Take_rejected_run r key c l t :
  next_fault c = None ->
  bucket_of r key (db c) = Some (l, 0, t) ->
  redisStore_Take r key c = (Done (l, 0, t, false, None), pop_fault c).
Proof.
  intros Hget (sl & sa & st & Hvals & Hl & Ha & Ht)%decode_Some.
  rewrite Take_run, (take_run_existing r key sl sa st c Hget Hvals).
  unfold take_existing. by rewrite Hl, Ha, Ht.
Qed.

(** C4. When the store holds a bucket [(limit, 0, resetTime)] for the key,
    [Take] returns [(limit, 0, resetTime, false, nil)] and the contents of
    the store are as before; so it is for each of [n] calls in a row:
    [remaining] stays 0. *)
Theorem Take_rejects_at_zero r key c l t n :
  quiet c ->
  bucket_of r key (db c) = Some (l, 0, t) ->
  let c' := (Take_times r key n c).2 in
  Take_times r key n c = (Done (replicate n (l, 0, t, false, None)), c') /\
  db c' = db c /\
  bucket_of r key (db c') = Some (l, 0, t).
Proof.
  revert c. induction n as [| n IH]; intros c Hq Hb c'; subst c'.
  - done.
  - cbn [Take_times replicate]. run_M.
    rewrite (Take_rejected_run r key c l t (quiet_next c Hq) Hb).
    destruct (IH (pop_fault c) (quiet_pop c Hq) Hb) as (Hrun & Hdb & Hb').
    rewrite Hrun. cbn [snd] in *. done.
Qed.

Lemma Take_rejects_at_zero_witness :
  Take_times example_store "apikey-1" 3
    (bucket_conn "rate_limiter_redistore_apikey-1" 10 0 1700000001000000000)
  = (Done (replicate 3 (10, 0, 1700000001000000000, false, None)),
     (Take_times example_store "apikey-1" 3
        (bucket_conn "rate_limiter_redistore_apikey-1" 10 0 1700000001000000000)).2).
Proof.
  apply (Take_rejects_at_zero example_store "apikey-1"
           (bucket_conn "rate_limiter_redistore_apikey-1" 10 0 1700000001000000000)
           10 1700000001000000000 3).
  - constructor.
  - vm_compute. reflexivity.
Defined.

(** ** Buckets that do not decode *)

(** A field that is not a string is reported: the type assertions are
    checked. *)
Lemma Take_mismatch_types r key c sl v1 v2 :
  next_fault c = None ->
  bucket_vals r key (db c) = [Str sl; v1; v2] ->
  (assert_string v1).2 = false \/ (assert_string v2).2 = false ->
  redisStore_Take r key c
  = (Done (0, 0, 0, false,
           Some (fmt_Errorf "take" (errors_New "redis mismatch types"))),
     pop_fault c).
Proof.
  intros Hf Hvals Hbad. rewrite Take_run.
  unfold take, HMGet. run_M. rewrite Hf.
  change (db (pop_fault c)) with (db c).
  fold (bucket_vals r key (db c)). rewrite Hvals. cbn [lookup list_lookup].
  unfold ParseUint. cbn.
  destruct (strconv.ParseUint sl 0 64) as [l el]. cbn.
  destruct v1 as [| sa |]; cbn; try done.
  destruct (strconv.ParseUint sa 0 64) as [a ea]. cbn.
  destruct v2 as [| st |]; cbn; try done.
  destruct Hbad as [Hbad | Hbad]; done.
Qed.

(** C2 (fails on the code). The bucket of the key holds the fields
    [max_points = "10"], [actual_points = "abc"] and
    [reset_time = "1700000001000000000"]. [ParseUint] rejects ["abc"] with a
    syntax error and the value 0, but [take] tests [err], the error of HMGET,
    which is nil here, where it means [pErr]: [Take] returns
    [(10, 0, 1700000001000000000, false, nil)], no error, and the numeral
    counts as the remaining 0. *)
Theorem Take_unparsable_remaining_no_error :
  strconv.ParseUint "abc" 0 64 = (0, Some strconv.ErrSyntax) /\
  redisStore_Take example_store "apikey-1"
    (corrupt_conn "rate_limiter_redistore_apikey-1" "abc")
  = (Done (10, 0, 1700000001000000000, false, None),
     pop_fault (corrupt_conn "rate_limiter_redistore_apikey-1" "abc")).
Proof. split; vm_compute; reflexivity. Qed.

(** A numeral beyond [uint64]: [ParseUint] returns the largest value with a
    range error, [take] goes on, admits the request and writes
    [2^64 - 2] back. *)
Example Take_out_of_range_remaining_admitted :
  (redisStore_Take example_store "apikey-1"
     (corrupt_conn "rate_limiter_redistore_apikey-1" "99999999999999999999")).1
  = Done (10, 2 ^ 64 - 2, 1700000001000000000, true, None).
Proof. vm_compute. reflexivity. Qed.

(** ** Construction *)

(** C5. [NewRedisStore] returns only when [cfg.Tags] is empty, and then the
    tags of the store are the one default tag, the tag prefix followed by
    ["goratelimit"]; with any tag configured the loop assigns [tags[0]] on a
    slice of length 0 and panics. *)
Theorem NewRedisStore_tags cfg :
  let prefix := if decide (Prefix cfg = "") then defaultRedisPrefix else Prefix cfg in
  let tagPrefix :=
    if decide (TagsPrefix cfg = "") then defaultRedisTagPrefix else TagsPrefix cfg in
  NewRedisStore cfg =
  match Tags cfg with
  | [] => Done {| tags := [tagPrefix +:+ "goratelimit"];
                  tagPrefix := tagPrefix;
                  prefix := prefix;
                  maxPoints := Points cfg;
                  interval := Interval cfg |}
  | _ :: _ => Panic "index out of range"
  end.
Proof.
  unfold NewRedisStore. destruct (Tags cfg) as [| tag rest]; reflexivity.
Qed.

Example NewRedisStore_default :
  NewRedisStore {| Tags := []; TagsPrefix := ""; Prefix := "";
                   Interval := 1000000000; Points := 10 |}
  = Done example_store.
Proof. reflexivity. Qed.

Example NewRedisStore_with_tag_panics :
  NewRedisStore {| Tags := ["api"]; TagsPrefix := ""; Prefix := "";
                   Interval := 1000000000; Points := 10 |}
  = Panic "index out of range".
Proof. reflexivity. Qed.

(** ** [Reset] *)

Lemma del_keys_lookup keys : forall d k,
  let d' := foldr del_key d keys in
  hashes d' !! k = (if decide (k ∈ keys) then None else hashes d !! k) /\
  sets d' !! k = (if decide (k ∈ keys) then None else sets d !! k) /\
  expiry d' !! k = (if decide (k ∈ keys) then None else expiry d !! k).
Proof.
  induction keys as [| k0 keys IH]; intros d k; cbv zeta; cbn [foldr].
  - destruct (decide (k ∈ [])) as [Hin | _]; [by apply elem_of_nil in Hin | done].
  - destruct (IH d k) as (Hh & Hs & He). cbn [del_key hashes sets expiry].
    destruct (decide (k = k0)) as [-> | Hne].
    + rewrite !lookup_delete_eq.
      destruct (decide (k0 ∈ k0 :: keys)) as [_ | Hnin]; [done |].
      exfalso. apply Hnin. by left.
    + rewrite !lookup_delete_ne by done. rewrite Hh, Hs, He.
      destruct (decide (k ∈ keys)) as [Hin | Hnin];
        destruct (decide (k ∈ k0 :: keys)) as [Hin' | Hnin']; try done.
      * exfalso. apply Hnin'. by right.
      * exfalso. apply elem_of_cons in Hin' as [? | ?]; done.
Qed.

Lemma reset_cmds_lookup now r d k :
  let d' := exec_cmds now (reset_cmds r d) d in
  hashes d' !! k
    = (if decide (k ∈ reset_keys r d ++ tags r) then None else hashes d !! k) /\
  sets d' !! k
    = (if decide (k ∈ reset_keys r d ++ tags r) then None else sets d !! k) /\
  expiry d' !! k
    = (if decide (k ∈ reset_keys r d ++ tags r) then None else expiry d !! k).
Proof.
  unfold reset_cmds, exec_cmds. cbn [foldl exec_cmd]. cbv zeta.
  set (keys := reset_keys r d).
  destruct (del_keys_lookup (tags r)
              (foldr del_key (foldr del_key (foldr del_key d keys) keys) (tags r)) k)
    as (-> & -> & ->).
  destruct (del_keys_lookup (tags r) (foldr del_key (foldr del_key d keys) keys) k)
    as (-> & -> & ->).
  destruct (del_keys_lookup keys (foldr del_key d keys) k) as (-> & -> & ->).
  destruct (del_keys_lookup keys d k) as (-> & -> & ->).
  destruct (decide (k ∈ keys ++ tags r)) as [Hin | Hnin].
  - apply elem_of_app in Hin.
    destruct (decide (k ∈ tags r)); [done |].
    destruct (decide (k ∈ keys)); [done |]. by destruct Hin.
  - destruct (decide (k ∈ tags r)) as [Hin |].
    { exfalso. apply Hnin, elem_of_app. by right. }
    destruct (decide (k ∈ keys)) as [Hin |]; [| done].
    exfalso. apply Hnin, elem_of_app. by left.
Qed.

Lemma reset_run r c :
  reset r c =
  match tags r with
  | [] => (Done (Some (errors_New "tags not set")), c)
  | _ :: _ =>
      match next_fault c with
      | Some e => (Done (Some (fmt_Errorf "redis smembers" e)), pop_fault c)
      | None =>
          match next_fault (pop_fault c) with
          | Some e =>
              (Done (Some (fmt_Errorf "redis pipeline exec" e)),
               pop_fault (pop_fault c))
          | None =>
              (Done None, served (reset_cmds r (db c)) (pop_fault (pop_fault c)))
          end
      end
  end.
Proof.
  unfold reset, reset_cmds, reset_keys. destruct (tags r) as [| tag0 rest] eqn:Htags.
  - done.
  - cbn [length]. rewrite decide_False by done.
    unfold SMembers, pipe_Exec, pipe_Del, pipe_Process, TxPipeline. run_M.
    cbn [lookup list_lookup]. unfold ret. destruct (next_fault c); [done |].
    cbn [app]. by destruct (next_fault (pop_fault c)).
Qed.


(** ** The middleware *)

(** C8. When the request is not skipped, its key is extracted and [Take]
    returns [(limit, remaining, t, false, nil)], the middleware sets
    [X-RateLimit-Limit], [X-RateLimit-Remaining] and [X-RateLimit-Reset],
    sets [Retry-After] to the same rendered time as [X-RateLimit-Reset], and
    sends status 429 with these headers; the response is the same whatever
    the wrapped handler is: it is not called. *)
Theorem Middleware_rejects {T W : Type} `{!Store T W}
    (time_Format : Z -> string -> string) (s : T) (keyFunc : option KeyFunc)
    (opts : list Option) (next : Handler) (w : ResponseWriter) (r : Request)
    (st st' : W) (kf : KeyFunc) (key : string) (limit remaining t : Z) :
  skips (apply_options opts) = false ->
  keyFunc = Some kf ->
  kf r = (key, None) ->
  Take s key st = (Done (limit, remaining, t, false, None), st') ->
  sent w = None ->
  let resetTime := time_Format (int64 t) (dateFormat (apply_options opts)) in
  let headers :=
    <[HeaderRetryAfter := resetTime]>
      (limit_headers limit remaining resetTime (Header w)) in
  LimiterMiddleware time_Format s keyFunc opts next w r st
    = (Done {| Header := headers; sent := Some (StatusTooManyRequests, headers) |},
       st') /\
  headers !! HeaderRateLimitLimit = Some (strconv.FormatUint limit 10) /\
  headers !! HeaderRateLimitRemaining = Some (strconv.FormatUint remaining 10) /\
  headers !! HeaderRateLimitReset = Some resetTime /\
  headers !! HeaderRetryAfter = Some resetTime.
Proof.
  intros Hskip -> Hkey Htake Hsent resetTime headers.
  split.
  - unfold LimiterMiddleware. rewrite Hskip, Hkey. cbn [non_nil].
    rewrite Htake. cbn [non_nil negb].
    unfold WriteHeader, Header_Set. cbn [sent Header]. by rewrite Hsent.
  - subst headers. unfold limit_headers.
    repeat split.
    + by rewrite !lookup_insert_ne, lookup_insert_eq by done.
    + by rewrite !lookup_insert_ne, lookup_insert_eq by done.
    + by rewrite lookup_insert_ne, lookup_insert_eq by done.
    + by rewrite lookup_insert_eq.
Qed.

Lemma Middleware_rejects_witness :
  (LimiterMiddleware layout_only {| answer := (10, 0, 0, false, None) |}
     (Some test_keyFunc) [] ok_handler fresh_response test_request []).1
  = Done {| Header :=
              {[ HeaderRetryAfter := defaultDateFormat;
                 HeaderRateLimitReset := defaultDateFormat;
                 HeaderRateLimitRemaining := "0";
                 HeaderRateLimitLimit := "10" ]};
            sent :=
              Some (429,
                    {[ HeaderRetryAfter := defaultDateFormat;
                       HeaderRateLimitReset := defaultDateFormat;
                       HeaderRateLimitRemaining := "0";
                       HeaderRateLimitLimit := "10" ]}) |}.
Proof.
  pose proof (Middleware_rejects layout_only {| answer := (10, 0, 0, false, None) |}
                (Some test_keyFunc) [] ok_handler fresh_response test_request
                [] ["1234"] test_keyFunc "1234" 10 0 0
                eq_refl eq_refl eq_refl eq_refl eq_refl) as [Hrun _].
  rewrite Hrun. vm_compute. reflexivity.
Defined.

(** C9 as stated fails: with a skipper that says to skip, a middleware
    without key function hands the request to the wrapped handler, which
    answers 200 here; there is no 500. *)
Lemma nil_keyFunc_skipped_is_delegated :
  ~ (forall (opts : list Option) (next : Handler) (w : ResponseWriter)
            (r : Request) (calls : list string),
       sent w = None ->
       LimiterMiddleware layout_only {| answer := (10, 3, 0, true, None) |}
         None opts next w r calls
       = (Done (server_error w), calls)).
Proof.
  intros Hclaim.
  specialize (Hclaim [WithSkipper (fun _ => true)] ok_handler fresh_response
                test_request [] eq_refl).
  vm_compute in Hclaim. discriminate Hclaim.
Qed.

(** C9, amended. When the request is not skipped: if the middleware has no
    key function, or the key function fails, the middleware sends status 500,
    leaves the headers as they were and returns the state of the store as it
    was, for every store; if [Take] fails it sends status 500 and leaves the
    headers as they were. The response is the same whatever the wrapped
    handler is: it is not called. *)
Theorem Middleware_internal_failure {T W : Type} `{!Store T W}
    (time_Format : Z -> string -> string) (s : T) (keyFunc : option KeyFunc)
    (opts : list Option) (next : Handler) (w : ResponseWriter) (r : Request)
    (st : W) :
  skips (apply_options opts) = false ->
  sent w = None ->
  match keyFunc with
  | None =>
      LimiterMiddleware time_Format s keyFunc opts next w r st
      = (Done (server_error w), st)
  | Some kf =>
      match kf r with
      | (key, Some _) =>
          LimiterMiddleware time_Format s keyFunc opts next w r st
          = (Done (server_error w), st)
      | (key, None) =>
          forall limit remaining t ok e st',
            Take s key st = (Done (limit, remaining, t, ok, Some e), st') ->
            LimiterMiddleware time_Format s keyFunc opts next w r st
            = (Done (server_error w), st')
      end
  end.
Proof.
  intros Hskip Hsent. unfold LimiterMiddleware. rewrite Hskip.
  assert (WriteHeader StatusInternalServerError w = server_error w) as ->.
  { unfold WriteHeader. by rewrite Hsent. }
  destruct keyFunc as [kf |]; [| done].
  destruct (kf r) as [key [e |]]; [done |].
  intros limit remaining t ok e st' Htake. cbn [non_nil]. by rewrite Htake.
Qed.

(** With the recording store: no call of [Take] is recorded when the key
    function fails. *)
Lemma Middleware_internal_failure_witness :
  LimiterMiddleware layout_only {| answer := (10, 0, 0, false, None) |}
    (Some failing_keyFunc) [] ok_handler fresh_response test_request []
  = (Done (server_error fresh_response), []).
Proof.
  apply (Middleware_internal_failure layout_only
           {| answer := (10, 0, 0, false, None) |}
           (Some failing_keyFunc) [] ok_handler fresh_response test_request []);
    reflexivity.
Defined.

(** ** Calls that overlap, calls that do not *)

(** A call is its two phases, one after the other. *)
Lemma Take_phases r key c :
  redisStore_Take r key c = (p ← take_begin r key; Take_end r p) c.
Proof.
  unfold redisStore_Take, Take_end, take, take_begin, take_end. run_M.
  destruct (HMGet (prefix r +:+ key)
              [redisMaxPointsFieldName; redisActualPointsFieldName;
               redisResetTimeFieldName] c) as [[[vals err] | msg] c1]; [| done].
  destruct err as [e |].
  { destruct (errors_Is_Nil e); [| done].
    destruct (newBucket r (prefix r +:+ key) c1) as [[d | msg] c2]; done. }
  destruct (vals !! 0%nat) as [v0 |]; [| done]. unfold ret.
  destruct v0 as [| sl |]; cbn [assert_string negb]; try done.
  { destruct (newBucket r (prefix r +:+ key) c1) as [[d | msg] c2]; done. }
  destruct (ParseUint sl 0 64) as [l el]. cbn [non_nil].
  destruct (vals !! 1%nat) as [v1 |]; [| done].
  destruct v1 as [| sa |]; cbn [assert_string negb]; try done.
  destruct (ParseUint sa 0 64) as [a ea].
  destruct (vals !! 2%nat) as [v2 |]; [| done].
  destruct v2 as [| st |]; cbn [assert_string negb]; try done.
  destruct (ParseUint st 0 64) as [t et].
  destruct (0 <? a); [| done].
  destruct (update r (prefix r +:+ key)
              [redisActualPointsFieldName; strconv.FormatUint (a - 1) 10] c1)
    as [[[e |] | msg] c2]; done.
Qed.

Lemma quiet_served cmds c : quiet c -> quiet (served cmds c).
Proof. done. Qed.

Lemma Take_times_run r key n : forall c l a t,
  quiet c ->
  bucket_of r key (db c) = Some (l, a, t) ->
  exists c',
    Take_times r key n c = (Done (decisions l a t n), c') /\
    quiet c' /\
    bucket_of r key (db c') = Some (l, Z.max 0 (a - Z.of_nat n), t).
Proof.
  induction n as [| n IH]; intros c l a t Hq Hb.
  - exists c. pose proof (bucket_of_range _ _ _ _ _ _ Hb).
    cbn [Take_times decisions]. replace (Z.max 0 (a - Z.of_nat 0)) with a by lia.
    done.
  - pose proof (bucket_of_range _ _ _ _ _ _ Hb) as (_ & Ha & _).
    cbn [Take_times decisions]. run_M.
    destruct (Z.ltb_spec 0 a) as [Hpos | Hzero].
    + rewrite (Take_admitted_run r key c l a t (quiet_next c Hq)
                 (quiet_next _ (quiet_pop c Hq)) Hb Hpos).
      match goal with
      | |- context [served ?cmds ?c0] => set (c1 := served cmds c0)
      end.
      assert (quiet c1) as Hq' by apply quiet_served, quiet_pop, quiet_pop, Hq.
      assert (bucket_of r key (db c1) = Some (l, a - 1, t)) as Hb'.
      { subst c1. cbn [served db pop_fault clock].
        change (exec_cmds ?now [?cmd] ?d) with (exec_cmd now cmd d).
        by apply (bucket_of_update _ _ _ _ l a t); [| lia]. }
      destruct (IH _ l (a - 1) t Hq' Hb') as (c' & Hrest & Hqc' & Hbc').
      exists c'. rewrite Hrest. split; [done |]. split; [done |].
      rewrite Hbc'. do 3 f_equal. lia.
    + assert (a = 0) as -> by lia.
      rewrite (Take_rejected_run r key c l t (quiet_next c Hq) Hb).
      destruct (IH (pop_fault c) l 0 t (quiet_pop c Hq) Hb)
        as (c' & Hrest & Hqc' & Hbc').
      exists c'. rewrite Hrest. split; [done |]. split; [done |].
      rewrite Hbc'. do 3 f_equal. lia.
Qed.

Lemma count_calls_app p cs1 cs2 :
  count_calls p (cs1 ++ cs2) = (count_calls p cs1 + count_calls p cs2)%nat.
Proof. unfold count_calls. by rewrite filter_app, length_app. Qed.

Lemma count_calls_cons p c cs :
  count_calls p (c :: cs) = ((if p c then 1 else 0) + count_calls p cs)%nat.
Proof.
  unfold count_calls. destruct (p c) eqn:Hp.
  - by rewrite filter_cons_True.
  - rewrite filter_cons_False; [done |]. by rewrite Hp.
Qed.

Lemma decisions_counts l t n : forall a,
  0 <= a ->
  count_calls is_admitted (Returned <$> decisions l a t n)
    = Z.to_nat (Z.min a (Z.of_nat n)) /\
  count_calls is_rejected (Returned <$> decisions l a t n)
    = (n - Z.to_nat (Z.min a (Z.of_nat n)))%nat.
Proof.
  induction n as [| n IH]; intros a Ha; cbn [decisions].
  - cbn. split; [| done]. rewrite Z.min_r by lia. done.
  - destruct (Z.ltb_spec 0 a) as [Hpos | Hzero].
    + destruct (IH (a - 1) ltac:(lia)) as [IHa IHr].
      rewrite fmap_cons, !count_calls_cons, IHa, IHr. cbn [is_admitted is_rejected].
      split; lia.
    + destruct (IH a Ha) as [IHa IHr].
      rewrite fmap_cons, !count_calls_cons, IHa, IHr. cbn [is_admitted is_rejected].
      split; lia.
Qed.

Lemma insert_middle {A} (l1 l2 : list A) (x y : A) :
  <[length l1 := x]> (l1 ++ y :: l2) = l1 ++ x :: l2.
Proof.
  replace (length l1) with (length l1 + 0)%nat at 1 by lia.
  by rewrite insert_app_r.
Qed.

Lemma run_sequential r key n : forall (returned : list call) c,
  run_schedule r key (sequential (length returned) n)
    (returned ++ replicate n NotStarted) c
  = match Take_times r key n c with
    | (Done ds, c') => (Done (returned ++ (Returned <$> ds)), c')
    | (Panic msg, c') => (Panic msg, c')
    end.
Proof.
  induction n as [| n IH]; intros returned c.
  - cbn. by rewrite !app_nil_r.
  - unfold sequential. cbn [seq flat_map app replicate run_schedule Take_times].
    fold (sequential (S (length returned)) n).
    run_M. rewrite Take_phases. run_M. unfold step_call at 1.
    rewrite list_lookup_middle by done. run_M.
    destruct (take_begin r key c) as [[p | msg] c1]; [| done].
    rewrite insert_middle. unfold step_call at 1.
    rewrite list_lookup_middle by done. run_M.
    destruct (Take_end r p c1) as [[d | msg] c2]; [| done].
    rewrite insert_middle.
    specialize (IH (returned ++ [Returned d]) c2).
    rewrite length_app in IH. cbn [length] in IH.
    replace (length returned + 1)%nat with (S (length returned)) in IH by lia.
    rewrite <- app_assoc in IH. cbn [app] in IH. rewrite IH.
    destruct (Take_times r key n c2) as [[ds | msg] c3]; [| done].
    by rewrite <- app_assoc.
Qed.

(** Two calls that overlap on a bucket with one permit left: both read
    [remaining = 1] before either writes, both write 0, both are admitted. *)
Example overlapping_calls_run :
  (run_schedule example_store "apikey-1" [0; 1; 0; 1]%nat (replicate 2 NotStarted)
     (bucket_conn "rate_limiter_redistore_apikey-1" 10 1 1700000001000000000)).1
  = Done [Returned (10, 0, 1700000001000000000, true, None);
          Returned (10, 0, 1700000001000000000, true, None)].
Proof. vm_compute. reflexivity. Qed.

(** C10 as stated fails: of two calls on a bucket with [remaining = 1],
    scheduled so that both run HMGET before either runs HSET, both are
    admitted, not one. *)
Lemma overlapping_calls_both_admitted :
  ~ (forall schedule : list nat,
       schedule ≡ₚ sequential 0 2 ->
       forall cs c',
         run_schedule example_store "apikey-1" schedule (replicate 2 NotStarted)
           (bucket_conn "rate_limiter_redistore_apikey-1" 10 1 1700000001000000000)
         = (Done cs, c') ->
         count_calls is_admitted cs = 1%nat /\
         count_calls is_rejected cs = 1%nat).
Proof.
  intros Hclaim.
  assert ([0; 1; 0; 1]%nat ≡ₚ sequential 0 2) as Hperm.
  { cbn. apply perm_skip, perm_swap. }
  specialize (Hclaim _ Hperm).
  destruct (run_schedule example_store "apikey-1" [0; 1; 0; 1]%nat
              (replicate 2 NotStarted)
              (bucket_conn "rate_limiter_redistore_apikey-1" 10 1
                 1700000001000000000)) as [[cs | msg] c'] eqn:Hrun.
  - destruct (Hclaim cs c' eq_refl) as [Hadm _].
    vm_compute in Hrun. injection Hrun as <- _.
    vm_compute in Hadm. discriminate Hadm.
  - vm_compute in Hrun. discriminate Hrun.
Qed.

(** C10, amended. Of [N] calls of [Take] on a key that run one after the
    other (each returns before the next starts), on a bucket with
    [remaining = R < N] and with no failing round trip, exactly [R] are
    admitted and [N - R] are rejected, and the bucket is left with
    [remaining = 0]. *)
Theorem sequential_calls_admit_remaining r key c l R t (N : nat) :
  quiet c ->
  bucket_of r key (db c) = Some (l, R, t) ->
  R < Z.of_nat N ->
  exists cs c',
    run_schedule r key (sequential 0 N) (replicate N NotStarted) c = (Done cs, c') /\
    length cs = N /\
    count_calls is_admitted cs = Z.to_nat R /\
    count_calls is_rejected cs = (N - Z.to_nat R)%nat /\
    bucket_of r key (db c') = Some (l, 0, t).
Proof.
  intros Hq Hb HR.
  pose proof (bucket_of_range _ _ _ _ _ _ Hb) as (_ & HR0 & _).
  destruct (Take_times_run r key N c l R t Hq Hb) as (c' & Hrun & _ & Hb').
  pose proof (run_sequential r key N [] c) as Hseq.
  cbn [length app] in Hseq. rewrite Hrun in Hseq.
  destruct (decisions_counts l t N R ltac:(lia)) as [Hadm Hrej].
  rewrite Z.min_l in Hadm, Hrej by lia.
  exists (Returned <$> decisions l R t N), c'.
  split; [done |]. split; [| split; [done | split; [done |]]].
  - rewrite length_fmap. clear. revert R.
    induction N as [| N IH]; intros R; cbn [decisions]; [done |].
    destruct (0 <? R); cbn [length]; by rewrite IH.
  - rewrite Hb'. do 3 f_equal. lia.
Qed.

Lemma sequential_calls_admit_remaining_witness :
  exists cs c',
    run_schedule example_store "apikey-1" (sequential 0 3) (replicate 3 NotStarted)
      (bucket_conn "rate_limiter_redistore_apikey-1" 10 2 1700000001000000000)
    = (Done cs, c') /\
    length cs = 3%nat /\
    count_calls is_admitted cs = 2%nat /\
    count_calls is_rejected cs = 1%nat /\
    bucket_of example_store "apikey-1" (db c') = Some (10, 0, 1700000001000000000).
Proof.
  apply (sequential_calls_admit_remaining example_store "apikey-1"
           (bucket_conn "rate_limiter_redistore_apikey-1" 10 2 1700000001000000000)
           10 2 1700000001000000000 3).
  - constructor.
  - vm_compute. reflexivity.
  - lia.
Defined.

(** ** The life of a bucket *)

Lemma exec_cmd_avoids now c d k :
  cmd_avoids k c ->
  hashes (exec_cmd now c d) !! k = hashes d !! k /\
  expiry (exec_cmd now c d) !! k = expiry d !! k.
Proof.
  destruct c as [k' vs | k' e | k' m | ks]; cbn [cmd_avoids exec_cmd]; intros Hk.
  - cbn [hashes expiry]. by rewrite lookup_insert_ne.
  - destruct (key_exists k' d); [| done].
    destruct (e <=? 0); cbn [del_key hashes expiry].
    + by rewrite !lookup_delete_ne.
    + by rewrite lookup_insert_ne.
  - done.
  - destruct (del_keys_lookup ks d k) as (Hh & _ & He). cbv zeta in Hh, He.
    rewrite Hh, He. by destruct (decide (k ∈ ks)).
Qed.

Lemma exec_cmds_avoids now cmds k : forall d,
  Forall (cmd_avoids k) cmds ->
  hashes (exec_cmds now cmds d) !! k = hashes d !! k /\
  expiry (exec_cmds now cmds d) !! k = expiry d !! k.
Proof.
  induction cmds as [| c cmds IH]; intros d Hall; [done |].
  apply Forall_cons in Hall as [Hc Hall].
  change (exec_cmds now (c :: cmds) d) with (exec_cmds now cmds (exec_cmd now c d)).
  destruct (IH (exec_cmd now c d) Hall) as [-> ->].
  by apply exec_cmd_avoids.
Qed.

Lemma tag_cmds_avoid tags key expiration k :
  k ∉ tags -> Forall (cmd_avoids k) (tag_cmds tags key expiration).
Proof.
  induction tags as [| tag tags IH]; intros Hk; [constructor |].
  apply not_elem_of_cons in Hk as [Hne Hk].
  cbn [tag_cmds flat_map app].
  repeat (constructor; [cbn; congruence |]). by apply IH.
Qed.




Lemma no_bucket_None r key d :
  hashes d !! (prefix r +:+ key) = None -> no_bucket r key d.
Proof. intros Hh. unfold no_bucket, hash_field. by rewrite Hh. Qed.



Lemma purge_hashes now d k :
  hashes (purge now d) !! k = if expired now d k then None else hashes d !! k.
Proof.
  unfold purge. cbn [hashes]. rewrite map_lookup_filter.
  destruct (hashes d !! k) as [h |]; cbn [mbind option_bind fst];
    [| by destruct (expired now d k)].
  destruct (expired now d k) eqn:Hexp.
  - by rewrite option_guard_False.
  - by rewrite option_guard_True.
Qed.





Lemma hset_cmds_avoid r pk fields expiration k :
  k ∉ tags r -> pk <> k ->
  Forall (cmd_avoids k) (hset_cmds r pk fields expiration).
Proof.
  intros Htags Hne. unfold hset_cmds. apply Forall_app. split.
  - by apply tag_cmds_avoid.
  - repeat (constructor; [done |]). constructor.
Qed.













(** On the example store: the first call creates the bucket with
    [remaining = 10], the second call leaves 9, and two seconds later the
    bucket is gone. *)
Example bucket_life :
  bucket_of example_store "apikey-1"
    (db (run example_store [StepTake "apikey-1"; StepTake "apikey-1"] empty_conn))
  = Some (10, 9, 1700000001000000000) /\
  bucket_of example_store "apikey-1"
    (db (run example_store
           [StepTake "apikey-1"; StepTake "apikey-1"; StepTick 2000000000]
           empty_conn))
  = None.
Proof. split; vm_compute; reflexivity. Qed.


(** ** Every path of [Take] *)

Lemma hash_field_cases d k f :
  hash_field d k f = Nil \/ exists s, hash_field d k f = Str s.
Proof.
  unfold hash_field.
  destruct (hashes d !! k ≫= (fun h => h !! f)) as [v |]; [right; by exists v | by left].
Qed.

Lemma Take_of_newBucket r key c :
  take r key c = newBucket r (prefix r +:+ key) (pop_fault c) ->
  exists d c',
    redisStore_Take r key c = (Done d, c') /\
    clock c' = clock c /\
    Take_effect_of r key c d c'.
Proof.
  intros Htake. rewrite Take_run, Htake, newBucket_run.
  change (clock (pop_fault c)) with (clock c).
  destruct (next_fault (pop_fault c)) as [e |].
  - eexists _, _. split; [reflexivity |]. split; [done |]. left. by eexists.
  - eexists _, _. split; [reflexivity |]. split; [done |]. right. right. left. done.
Qed.

(** Whatever the store holds and whichever round trips fail, [Take]
    returns, and what it returns and leaves is one of four things. *)
Lemma Take_effect r key c :
  exists d c',
    redisStore_Take r key c = (Done d, c') /\
    clock c' = clock c /\
    Take_effect_of r key c d c'.
Proof.
  destruct (next_fault c) as [e |] eqn:Hf.
  { destruct (errors_Is_Nil e) eqn:He.
    - by apply Take_of_newBucket, (take_run_Nil r key e).
    - rewrite Take_run, (take_run_error r key e c Hf He).
      eexists _, _. split; [reflexivity |]. split; [done |]. left. by eexists. }
  destruct (hash_field_cases (db c) (prefix r +:+ key) redisMaxPointsFieldName)
    as [H0 | [sl H0]].
  { by apply Take_of_newBucket, take_run_missing. }
  assert (forall v1 v2,
            bucket_vals r key (db c) = [Str sl; v1; v2] ->
            (assert_string v1).2 = false \/ (assert_string v2).2 = false ->
            exists d c',
              redisStore_Take r key c = (Done d, c') /\
              clock c' = clock c /\ Take_effect_of r key c d c') as Hbad.
  { intros v1 v2 Hvals Hmis.
    rewrite (Take_mismatch_types r key c sl v1 v2 Hf Hvals Hmis).
    eexists _, _. split; [reflexivity |]. split; [done |]. left. by eexists. }
  assert (bucket_vals r key (db c)
          = [Str sl;
             hash_field (db c) (prefix r +:+ key) redisActualPointsFieldName;
             hash_field (db c) (prefix r +:+ key) redisResetTimeFieldName]) as Hvals.
  { unfold bucket_vals. cbn [map]. by rewrite H0. }
  destruct (hash_field_cases (db c) (prefix r +:+ key) redisActualPointsFieldName)
    as [H1 | [sa H1]]; rewrite H1 in Hvals.
  { apply (Hbad _ _ Hvals). by left. }
  destruct (hash_field_cases (db c) (prefix r +:+ key) redisResetTimeFieldName)
    as [H2 | [st H2]]; rewrite H2 in Hvals.
  { apply (Hbad _ _ Hvals). by right. }
  rewrite Take_run, (take_run_existing r key sl sa st c Hf Hvals).
  unfold take_existing.
  destruct (Z.ltb_spec 0 (strconv.ParseUint sa 0 64).1) as [Hpos | Hzero].
  - destruct (next_fault (pop_fault c)) as [e |].
    + eexists _, _. split; [reflexivity |]. split; [done |]. left. by eexists.
    + eexists _, _. split; [reflexivity |]. split; [done |].
      right. right. right. by eexists _, _, _.
  - eexists _, _. split; [reflexivity |]. split; [done |].
    right. left. by eexists _, _, _.
Qed.

(** X1. [Take] and [Reset] never panic, whatever the store holds and
    whichever round trips fail: the three values that [take] indexes are
    there whenever HMGET succeeds, and [reset] indexes [tags[0]] only behind
    its length check. [TakeExcl] always panics. *)
Theorem Take_and_Reset_never_panic r key c :
  (exists d c', redisStore_Take r key c = (Done d, c')) /\
  (exists e c', redisStore_Reset r c = (Done e, c')) /\
  (forall f, (redisStore_TakeExcl r key f c).1 = Panic "implement me").
Proof.
  split; [| split].
  - destruct (Take_effect r key c) as (d & c' & Hrun & _). by exists d, c'.
  - unfold redisStore_Reset. run_M. rewrite reset_run.
    destruct (tags r) as [| tag0 rest]; [by eexists _, _ |].
    destruct (next_fault c); [by eexists _, _ |].
    destruct (next_fault (pop_fault c)); by eexists _, _.
  - done.
Qed.

(** X2. A call of [Take] that returns an error returns the zero decision
    [(0, 0, 0, false, err)], and a call that does not admit the request
    (with or without an error) leaves the contents of the store as they
    were: nothing is decremented without being reported as admitted. *)
Theorem Take_without_admission_writes_nothing r key c l a t ok err c' :
  redisStore_Take r key c = (Done (l, a, t, ok, err), c') ->
  (err <> None -> l = 0 /\ a = 0 /\ t = 0 /\ ok = false) /\
  (ok = false -> db c' = db c) /\
  clock c' = clock c.
Proof.
  intros Hrun.
  destruct (Take_effect r key c) as (d & c1 & Hrun1 & Hclock & Heff).
  rewrite Hrun in Hrun1. injection Hrun1 as <- <-.
  split; [| split; [| done]].
  - intros Herr.
    destruct Heff as [(e & Hd & _) | [(l0 & a0 & t0 & Hd & _) | [[Hd _] |
                      (l0 & a0 & t0 & Hd & _)]]];
      injection Hd as -> -> -> -> ->; done.
  - intros ->.
    destruct Heff as [(e & Hd & Hdb) | [(l0 & a0 & t0 & Hd & _ & Hdb) | [[Hd _] |
                      (l0 & a0 & t0 & Hd & _)]]]; try done.
Qed.

Lemma Take_without_admission_writes_nothing_witness :
  db (redisStore_Take example_store "apikey-1"
        (failing_conn (errors_New "i/o timeout"))).2
  = db (failing_conn (errors_New "i/o timeout")).
Proof.
  eapply (Take_without_admission_writes_nothing example_store "apikey-1"
            (failing_conn (errors_New "i/o timeout")) 0 0 0 false
            (Some (fmt_Errorf "take"
                     (fmt_Errorf "HMGet" (errors_New "i/o timeout"))))).
  - reflexivity.
  - reflexivity.
Defined.

(** X3. With a positive interval, a call of [Take] that admits the request
    returns no error, and the [remaining] it returns is the numeral it has
    left in the field [actual_points] of the key: admission is never
    reported without the count having been written. *)
Theorem Take_admitted_stores_remaining r key c l a t err c' :
  0 < interval r ->
  redisStore_Take r key c = (Done (l, a, t, true, err), c') ->
  err = None /\
  hash_field (db c') (prefix r +:+ key) redisActualPointsFieldName
  = Str (strconv.FormatUint a 10).
Proof.
  intros Hint Hrun.
  destruct (Take_effect r key c) as (d & c1 & Hrun1 & Hclock & Heff).
  rewrite Hrun in Hrun1. injection Hrun1 as <- <-.
  destruct Heff as [(e & Hd & _) | [(l0 & a0 & t0 & Hd & _) | [[Hd Hdb] |
                    (l0 & a0 & t0 & Hd & _ & Hdb)]]]; try done.
  - injection Hd as -> -> -> ->. split; [done |].
    rewrite Hdb. unfold created_db, hset_cmds. rewrite exec_cmds_app.
    match goal with
    | |- context [exec_cmds ?now ?cmds (exec_cmds ?now ?tc ?d0)] =>
        destruct (bucket_cmds_positive now (prefix r +:+ key)
                    (bucket_fields r (clock c)) (interval r)
                    (exec_cmds now tc d0) Hint) as (Hh & _)
    end.
    cbv zeta in Hh. unfold hash_field. rewrite Hh, lookup_insert_eq.
    cbn [mbind option_bind].
    match goal with
    | |- context [hset_fields (bucket_fields r ?now) ?h] =>
        destruct (hset_bucket_fields r now h) as (_ & H2 & _)
    end.
    cbv zeta in H2. by rewrite H2.
  - injection Hd as -> -> -> ->. split; [done |].
    rewrite Hdb. unfold updated_db. rewrite hash_field_HSet.
    by rewrite decide_True.
Qed.

Lemma Take_admitted_stores_remaining_witness :
  hash_field
    (db (redisStore_Take example_store "apikey-1"
           (bucket_conn "rate_limiter_redistore_apikey-1" 10 3
              1700000001000000000)).2)
    "rate_limiter_redistore_apikey-1" redisActualPointsFieldName
  = Str "2".
Proof.
  eapply (Take_admitted_stores_remaining example_store "apikey-1"
            (bucket_conn "rate_limiter_redistore_apikey-1" 10 3
               1700000001000000000) 10 2 1700000001000000000 None).
  - cbn. lia.
  - vm_compute. reflexivity.
Defined.

(** ** Keys that a call does not concern *)

Lemma exec_cmd_avoids_sets now c d k :
  cmd_avoids k c -> sets (exec_cmd now c d) !! k = sets d !! k.
Proof.
  destruct c as [k' vs | k' e | k' m | ks]; cbn [cmd_avoids exec_cmd]; intros Hk.
  - done.
  - destruct (key_exists k' d); [| done].
    destruct (e <=? 0); cbn [del_key sets]; [| done].
    by rewrite lookup_delete_ne.
  - cbn [sets]. by rewrite lookup_insert_ne.
  - destruct (del_keys_lookup ks d k) as (_ & Hs & _). cbv zeta in Hs.
    rewrite Hs. by destruct (decide (k ∈ ks)).
Qed.

Lemma exec_cmds_avoids_sets now cmds k : forall d,
  Forall (cmd_avoids k) cmds ->
  sets (exec_cmds now cmds d) !! k = sets d !! k.
Proof.
  induction cmds as [| c cmds IH]; intros d Hall; [done |].
  apply Forall_cons in Hall as [Hc Hall].
  change (exec_cmds now (c :: cmds) d) with (exec_cmds now cmds (exec_cmd now c d)).
  rewrite (IH (exec_cmd now c d) Hall). by apply exec_cmd_avoids_sets.
Qed.

(** X4. A call of [Take] for a key concerns the prefixed key and the tags
    only: every other key of the server (the bucket of another key, the data
    of another limiter with another prefix) keeps its hash, its set and its
    expiry, whatever the call returns. *)
Theorem Take_leaves_other_keys r key c k :
  k <> prefix r +:+ key ->
  k ∉ tags r ->
  let c' := (redisStore_Take r key c).2 in
  hashes (db c') !! k = hashes (db c) !! k /\
  sets (db c') !! k = sets (db c) !! k /\
  expiry (db c') !! k = expiry (db c) !! k.
Proof.
  intros Hk Htags c'. subst c'.
  destruct (Take_effect r key c) as (d & c1 & Hrun & _ & Heff).
  rewrite Hrun. cbn [snd].
  destruct Heff as [(e & _ & Hdb) | [(l0 & a0 & t0 & _ & _ & Hdb) | [[_ Hdb] |
                    (l0 & a0 & t0 & _ & _ & Hdb)]]]; rewrite Hdb; try done.
  - unfold created_db.
    pose proof (hset_cmds_avoid r (prefix r +:+ key) (bucket_fields r (clock c))
                  (interval r) k Htags (not_eq_sym Hk)) as Hall.
    destruct (exec_cmds_avoids (clock c) _ k (db c) Hall) as [Hh He].
    by rewrite Hh, He, (exec_cmds_avoids_sets (clock c) _ k (db c) Hall).
  - unfold updated_db.
    assert (cmd_avoids k
              (CmdHSet (prefix r +:+ key)
                 [redisActualPointsFieldName; strconv.FormatUint (a0 - 1) 10]))
      as Hav by (cbn; congruence).
    destruct (exec_cmd_avoids (clock c) _ (db c) k Hav) as [Hh He].
    by rewrite Hh, He, (exec_cmd_avoids_sets (clock c) _ (db c) k Hav).
Qed.

Lemma Take_leaves_other_keys_witness :
  hashes (db (redisStore_Take example_store "apikey-2"
                (bucket_conn "rate_limiter_redistore_apikey-1" 10 3
                   1700000001000000000)).2)
    !! "rate_limiter_redistore_apikey-1"
  = hashes (db (bucket_conn "rate_limiter_redistore_apikey-1" 10 3
                  1700000001000000000))
    !! "rate_limiter_redistore_apikey-1".
Proof.
  apply (Take_leaves_other_keys example_store "apikey-2"
           (bucket_conn "rate_limiter_redistore_apikey-1" 10 3 1700000001000000000)
           "rate_limiter_redistore_apikey-1").
  - discriminate.
  - intros Hin. apply list_elem_of_singleton in Hin. discriminate Hin.
Defined.

(** ** Tags *)









(** ** Windows: reset, first calls, renewal *)

Lemma Take_first_call_run r key c :
  quiet c ->
  no_bucket r key (db c) ->
  redisStore_Take r key c
  = (Done (maxPoints r, maxPoints r, uint64 (clock c + interval r), true, None),
     served (hset_cmds r (prefix r +:+ key) (bucket_fields r (clock c)) (interval r))
            (pop_fault (pop_fault c))).
Proof.
  intros Hq Hno.
  rewrite Take_run, (take_run_missing r key c (quiet_next c Hq) Hno), newBucket_run.
  by rewrite (quiet_next _ (quiet_pop c Hq)).
Qed.

(** X6. With a tag configured and no failing round trip, [Reset] returns
    nil, and for every key whose prefixed key is a member of the first tag's
    set the bucket is gone: the next [Take] for it is a first call again and
    returns [(limit, limit, now + interval, true, nil)]. *)
Theorem Reset_then_Take_is_first_call r c key tag0 rest members :
  tags r = tag0 :: rest ->
  quiet c ->
  sets (db c) !! tag0 = Some members ->
  prefix r +:+ key ∈ members ->
  let c1 := (redisStore_Reset r c).2 in
  (redisStore_Reset r c).1 = Done None /\
  no_bucket r key (db c1) /\
  (redisStore_Take r key c1).1
  = Done (maxPoints r, maxPoints r, uint64 (clock c + interval r), true, None).
Proof.
  intros Htags Hq Hset Hin c1. subst c1.
  unfold redisStore_Reset. run_M. rewrite reset_run, Htags.
  rewrite (quiet_next c Hq), (quiet_next _ (quiet_pop c Hq)).
  cbn [fst snd].
  set (c1 := served (reset_cmds r (db c)) (pop_fault (pop_fault c))).
  assert (quiet c1) as Hq1 by apply quiet_served, quiet_pop, quiet_pop, Hq.
  assert (no_bucket r key (db c1)) as Hno.
  { apply no_bucket_None. subst c1. cbn [served db pop_fault clock].
    destruct (reset_cmds_lookup (clock c) r (db c) (prefix r +:+ key)) as (Hh & _).
    cbv zeta in Hh. rewrite Hh.
    destruct (decide (prefix r +:+ key ∈ reset_keys r (db c) ++ tags r))
      as [_ | Hnin]; [done |].
    exfalso. apply Hnin, elem_of_app. left.
    unfold reset_keys. rewrite Htags, Hset. cbn [default].
    by apply elem_of_elements. }
  split; [done |]. split; [done |].
  by rewrite (Take_first_call_run r key c1 Hq1 Hno).
Qed.

Lemma Reset_then_Take_is_first_call_witness :
  (redisStore_Take example_store "apikey-1"
     (redisStore_Reset example_store
        (bucket_conn "rate_limiter_redistore_apikey-1" 10 0
           1700000001000000000)).2).1
  = Done (10, 10, 1700000001000000000, true, None).
Proof.
  apply (Reset_then_Take_is_first_call example_store
           (bucket_conn "rate_limiter_redistore_apikey-1" 10 0 1700000001000000000)
           "apikey-1" "tags:goratelimit" []
           {[ "rate_limiter_redistore_apikey-1" ]}).
  - reflexivity.
  - constructor.
  - reflexivity.
  - apply elem_of_singleton. reflexivity.
Defined.

(** X7. Starting from no bucket, with a positive interval and no failing
    round trip, the call that creates the bucket is admitted and returns
    [remaining = limit] without using a permit, so the calls that follow
    find [limit] permits: of [1 + n] calls in a row, [1 + min limit n] are
    admitted. A window admits [limit + 1] requests. *)
Theorem fresh_window_admits_one_more r key c (n : nat) :
  0 <= maxPoints r < 2 ^ 64 ->
  0 < interval r ->
  quiet c ->
  no_bucket r key (db c) ->
  let resetTime := uint64 (clock c + interval r) in
  let ds := (maxPoints r, maxPoints r, resetTime, true, None)
            :: decisions (maxPoints r) (maxPoints r) resetTime n in
  (Take_times r key (S n) c).1 = Done ds /\
  count_calls is_admitted (Returned <$> ds)
  = S (Z.to_nat (Z.min (maxPoints r) (Z.of_nat n))).
Proof.
  intros Hmax Hint Hq Hno resetTime ds. subst ds resetTime.
  split.
  - cbn [Take_times]. run_M. rewrite (Take_first_call_run r key c Hq Hno).
    match goal with
    | |- context [served ?cmds ?c0] => set (c1 := served cmds c0)
    end.
    assert (quiet c1) as Hq1 by apply quiet_served, quiet_pop, quiet_pop, Hq.
    assert (bucket_of r key (db c1)
            = Some (maxPoints r, maxPoints r, uint64 (clock c + interval r))) as Hb.
    { subst c1. cbn [served db pop_fault clock].
      apply (newBucket_db r (clock c) (prefix r +:+ key) (db c) Hmax Hint). }
    destruct (Take_times_run r key n c1 _ _ _ Hq1 Hb) as (c' & Hrun & _).
    by rewrite Hrun.
  - rewrite fmap_cons, count_calls_cons. cbn [is_admitted].
    destruct (decisions_counts (maxPoints r) (uint64 (clock c + interval r)) n
                (maxPoints r) ltac:(lia)) as [-> _].
    done.
Qed.

Lemma fresh_window_admits_one_more_witness :
  count_calls is_admitted
    (Returned <$>
       (10, 10, 1700000001000000000, true, None)
       :: decisions 10 10 1700000001000000000 12)
  = 11%nat.
Proof.
  apply (fresh_window_admits_one_more example_store "apikey-1" empty_conn 12).
  - cbn. lia.
  - cbn. lia.
  - constructor.
  - reflexivity.
Defined.

(** X8. Once the deadline of a key is reached the server has dropped it,
    and with no failing round trip the next [Take] starts a new window:
    it returns [(limit, limit, now + interval, true, nil)] for the new
    now. *)
Theorem Take_after_deadline_starts_new_window r key c d deadline :
  quiet c ->
  expiry (db c) !! (prefix r +:+ key) = Some deadline ->
  deadline <= clock c + d ->
  (redisStore_Take r key (tick d c)).1
  = Done (maxPoints r, maxPoints r, uint64 (clock c + d + interval r), true, None).
Proof.
  intros Hq Hexp Hdl.
  assert (quiet (tick d c)) as Hq' by exact Hq.
  assert (no_bucket r key (db (tick d c))) as Hno.
  { apply no_bucket_None. unfold tick. cbn [db].
    rewrite purge_hashes. unfold expired. rewrite Hexp.
    by replace (deadline <=? clock c + d) with true
      by (symmetry; apply Z.leb_le; lia). }
  by rewrite (Take_first_call_run r key (tick d c) Hq' Hno).
Qed.

Lemma Take_after_deadline_starts_new_window_witness :
  (redisStore_Take example_store "apikey-1"
     (tick 1000000000
        (bucket_conn "rate_limiter_redistore_apikey-1" 10 0
           1700000001000000000))).1
  = Done (10, 10, 1700000002000000000, true, None).
Proof.
  apply (Take_after_deadline_starts_new_window example_store "apikey-1"
           (bucket_conn "rate_limiter_redistore_apikey-1" 10 0 1700000001000000000)
           1000000000 1700000001000000000).
  - constructor.
  - reflexivity.
  - cbn. lia.
Defined.

(** ** More of the middleware *)

(** The response with the rate-limit headers of a decision. *)
Lemma Middleware_after_Take {T W : Type} `{!Store T W}
    (time_Format : Z -> string -> string) (s : T) (kf : KeyFunc)
    (opts : list Option) (next : Handler) (w : ResponseWriter) (r : Request)
    (st : W) (key : string) :
  skips (apply_options opts) = false ->
  kf r = (key, None) ->
  LimiterMiddleware time_Format s (Some kf) opts next w r st =
  match Take s key st with
  | (Panic msg, st') => (Panic msg, st')
  | (Done (limit, remaining, t, ok, err), st') =>
      if non_nil err then (Done (WriteHeader StatusInternalServerError w), st')
      else
        let resetTime := time_Format (int64 t) (dateFormat (apply_options opts)) in
        let w' := {| Header := limit_headers limit remaining resetTime (Header w);
                     sent := sent w |} in
        if ok then (Done (next w' r), st')
        else (Done (WriteHeader StatusTooManyRequests
                      (Header_Set HeaderRetryAfter resetTime w')), st')
  end.
Proof.
  intros Hskip Hkey. unfold LimiterMiddleware. rewrite Hskip, Hkey. cbn [non_nil].
  destruct (Take s key st) as [[[[[[limit remaining] t] ok] err] | msg] st']; [| done].
  destruct (non_nil err); [done |]. by destruct ok.
Qed.

(** X9. When the request is not skipped, its key is extracted and [Take]
    returns [(limit, remaining, t, true, nil)], the middleware sets
    [X-RateLimit-Limit], [X-RateLimit-Remaining] and [X-RateLimit-Reset],
    leaves [Retry-After] as it was, sends no status of its own and hands the
    response with these headers to the wrapped handler. *)
Theorem Middleware_admits {T W : Type} `{!Store T W}
    (time_Format : Z -> string -> string) (s : T) (kf : KeyFunc)
    (opts : list Option) (next : Handler) (w : ResponseWriter) (r : Request)
    (st st' : W) (key : string) (limit remaining t : Z) :
  skips (apply_options opts) = false ->
  kf r = (key, None) ->
  Take s key st = (Done (limit, remaining, t, true, None), st') ->
  let resetTime := time_Format (int64 t) (dateFormat (apply_options opts)) in
  let headers := limit_headers limit remaining resetTime (Header w) in
  LimiterMiddleware time_Format s (Some kf) opts next w r st
    = (Done (next {| Header := headers; sent := sent w |} r), st') /\
  headers !! HeaderRateLimitLimit = Some (strconv.FormatUint limit 10) /\
  headers !! HeaderRateLimitRemaining = Some (strconv.FormatUint remaining 10) /\
  headers !! HeaderRateLimitReset = Some resetTime /\
  headers !! HeaderRetryAfter = Header w !! HeaderRetryAfter.
Proof.
  intros Hskip Hkey Htake resetTime headers.
  split.
  - rewrite (Middleware_after_Take time_Format s kf opts next w r st key Hskip Hkey).
    by rewrite Htake.
  - subst headers. unfold limit_headers. repeat split.
    + by rewrite !lookup_insert_ne, lookup_insert_eq by done.
    + by rewrite lookup_insert_ne, lookup_insert_eq by done.
    + by rewrite lookup_insert_eq.
    + by rewrite !lookup_insert_ne by done.
Qed.

Lemma Middleware_admits_witness :
  (LimiterMiddleware layout_only {| answer := (10, 3, 0, true, None) |}
     (Some test_keyFunc) [] ok_handler fresh_response test_request []).1
  = Done {| Header :=
              {[ HeaderRateLimitReset := defaultDateFormat;
                 HeaderRateLimitRemaining := "3";
                 HeaderRateLimitLimit := "10" ]};
            sent :=
              Some (200,
                    {[ HeaderRateLimitReset := defaultDateFormat;
                       HeaderRateLimitRemaining := "3";
                       HeaderRateLimitLimit := "10" ]}) |}.
Proof.
  pose proof (Middleware_admits layout_only {| answer := (10, 3, 0, true, None) |}
                test_keyFunc [] ok_handler fresh_response test_request
                [] ["1234"] "1234" 10 3 0
                eq_refl eq_refl eq_refl) as [Hrun _].
  rewrite Hrun. vm_compute. reflexivity.
Defined.

(** X10. When the skipper is set and says to skip, the middleware hands the
    request to the wrapped handler with the response as it was and does
    nothing else, for every store and every key function, a nil one as
    well: no header is set and the state of the store is as before. *)
Theorem Middleware_skips {T W : Type} `{!Store T W}
    (time_Format : Z -> string -> string) (s : T) (keyFunc : option KeyFunc)
    (opts : list Option) (skipperFn : unit -> bool) (next : Handler)
    (w : ResponseWriter) (r : Request) (st : W) :
  skipperFn tt = true ->
  LimiterMiddleware time_Format s keyFunc (opts ++ [WithSkipper skipperFn])
    next w r st
  = (Done (next w r), st).
Proof.
  intros Hskip. unfold LimiterMiddleware, skips, apply_options.
  rewrite foldl_app. cbn [foldl WithSkipper skipper]. by rewrite Hskip.
Qed.

Lemma Middleware_skips_witness :
  LimiterMiddleware layout_only {| answer := (10, 0, 0, false, None) |} None
    ([WithDateFormat "2006"] ++ [WithSkipper (fun _ => true)])
    ok_handler fresh_response test_request []
  = (Done (ok_handler fresh_response test_request), []).
Proof.
  apply (Middleware_skips layout_only {| answer := (10, 0, 0, false, None) |} None
           [WithDateFormat "2006"] (fun _ => true) ok_handler fresh_response
           test_request []).
  reflexivity.
Defined.

(** X11. For a request that is not skipped and whose key is extracted, the
    middleware calls [Take] once, with the key that the key function
    returned: the state of the store afterwards is the state that this one
    call leaves, whatever the call returns. *)
Theorem Middleware_takes_once {T W : Type} `{!Store T W}
    (time_Format : Z -> string -> string) (s : T) (kf : KeyFunc)
    (opts : list Option) (next : Handler) (w : ResponseWriter) (r : Request)
    (st : W) (key : string) :
  skips (apply_options opts) = false ->
  kf r = (key, None) ->
  (LimiterMiddleware time_Format s (Some kf) opts next w r st).2
  = (Take s key st).2.
Proof.
  intros Hskip Hkey.
  rewrite (Middleware_after_Take time_Format s kf opts next w r st key Hskip Hkey).
  destruct (Take s key st) as [[[[[[limit remaining] t] ok] err] | msg] st']; [| done].
  destruct (non_nil err); [done |]. by destruct ok.
Qed.

Lemma Middleware_takes_once_witness :
  (LimiterMiddleware layout_only {| answer := (10, 3, 0, true, None) |}
     (Some test_keyFunc) [] ok_handler fresh_response test_request ["earlier"]).2
  = ["earlier"; "1234"].
Proof.
  exact (Middleware_takes_once layout_only {| answer := (10, 3, 0, true, None) |}
           test_keyFunc [] ok_handler fresh_response test_request ["earlier"]
           "1234" eq_refl eq_refl).
Defined.

(** X12. With the no-op store the middleware never rejects: a request that
    is not skipped and whose key is extracted reaches the wrapped handler,
    with the rate-limit headers of the zero decision. *)
Theorem Middleware_noop_always_delegates
    (time_Format : Z -> string -> string) (kf : KeyFunc)
    (opts : list Option) (next : Handler) (w : ResponseWriter) (r : Request)
    (key : string) :
  skips (apply_options opts) = false ->
  kf r = (key, None) ->
  LimiterMiddleware time_Format NewNoop (Some kf) opts next w r tt
  = (Done (next {| Header :=
                     limit_headers 0 0
                       (time_Format 0 (dateFormat (apply_options opts))) (Header w);
                   sent := sent w |} r), tt).
Proof.
  intros Hskip Hkey.
  by rewrite (Middleware_after_Take time_Format NewNoop kf opts next w r tt key
                Hskip Hkey).
Qed.

Lemma Middleware_noop_always_delegates_witness :
  (LimiterMiddleware layout_only NewNoop (Some test_keyFunc) [] ok_handler
     fresh_response test_request tt).1
  = Done (ok_handler
            {| Header := limit_headers 0 0 defaultDateFormat ∅; sent := None |}
            test_request).
Proof.
  pose proof (Middleware_noop_always_delegates layout_only test_keyFunc []
                ok_handler fresh_response test_request "1234" eq_refl eq_refl)
    as Hrun.
  rewrite Hrun. reflexivity.
Defined.

(** ** The key function by IP address, and the options *)

(** X13. If one of the headers given to [IPKeyFunc] has a value that is not
    empty in the request, the key is the value of the first such header, in
    the order given, and there is no error: the remote address of the
    connection plays no part. *)
Theorem IPKeyFunc_header_precedence
    (canonical : string -> string)
    (split : string -> string * string * option error)
    (before after : list string) (h : string) (r : Request) :
  Forall (fun h' => Header_Get canonical r h' = "") before ->
  Header_Get canonical r h <> "" ->
  IPKeyFunc canonical split (before ++ h :: after) r
  = (Header_Get canonical r h, None).
Proof.
  intros Hbefore Hh. unfold IPKeyFunc.
  assert (header_key canonical (before ++ h :: after) r
          = Some (Header_Get canonical r h)) as ->; [| done].
  induction Hbefore as [| h' before Hempty _ IH]; cbn [app header_key].
  - by rewrite decide_False.
  - by rewrite decide_True.
Qed.

Lemma IPKeyFunc_header_precedence_witness :
  IPKeyFunc id split_colon ["X-Real-Ip"; "X-Forwarded-For"] forwarded_request
  = ("203.0.113.9", None).
Proof.
  apply (IPKeyFunc_header_precedence id split_colon ["X-Real-Ip"] []
           "X-Forwarded-For" forwarded_request).
  - repeat constructor.
  - discriminate.
Defined.

(** X14. If none of the headers given to [IPKeyFunc] has a value in the
    request (in particular with no header given), the key is the host that
    [net.SplitHostPort] finds in the remote address, and when the address
    does not split the key is empty and the error is returned. *)
Theorem IPKeyFunc_remote_address
    (canonical : string -> string)
    (split : string -> string * string * option error)
    (headers : list string) (r : Request) :
  Forall (fun h => Header_Get canonical r h = "") headers ->
  IPKeyFunc canonical split headers r
  = match split (RemoteAddr r) with
    | (ip, _, None) => (ip, None)
    | (_, _, Some e) => ("", Some e)
    end.
Proof.
  intros Hnone. unfold IPKeyFunc.
  assert (header_key canonical headers r = None) as ->.
  { induction Hnone as [| h headers Hempty _ IH]; cbn [header_key]; [done |].
    by rewrite decide_True. }
  by destruct (split (RemoteAddr r)) as [[ip port] [e |]].
Qed.

Lemma IPKeyFunc_remote_address_witness :
  IPKeyFunc id split_colon ["X-Real-Ip"] forwarded_request = ("10.0.0.7", None).
Proof.
  apply (IPKeyFunc_remote_address id split_colon ["X-Real-Ip"] forwarded_request).
  repeat constructor.
Defined.

(** X15. The reset time is rendered with the format of the last
    [WithDateFormat] among the options, wherever the skippers stand, and
    with RFC 1123 when the options set no format. *)
Theorem options_date_format (opts : list Option) (format : string)
    (skippers : list (unit -> bool)) :
  dateFormat (apply_options (opts ++ [WithDateFormat format]
                             ++ (WithSkipper <$> skippers))) = format /\
  dateFormat (apply_options (WithSkipper <$> skippers)) = defaultDateFormat.
Proof.
  assert (forall o, dateFormat (foldl (fun opt o => o opt) o
                                  (WithSkipper <$> skippers)) = dateFormat o) as Hsk.
  { induction skippers as [| sk skippers IH]; intros o; [done |].
    cbn [fmap list_fmap foldl]. by rewrite IH. }
  unfold apply_options. split.
  - by rewrite !foldl_app, Hsk.
  - by rewrite Hsk.
Qed.

(** ** [Reset] reaches every bucket *)











